(** * Retrieving frequency data by gene id: the notebook [by_gene.ipynb]

    A shallow embedding of the three functions of the notebook
    [tutorials/Variation Services/Jupyter_Notebook/by_gene.ipynb],
    [get_gene_loc], [get_next_interval_start] and [get_freq_by_interval],
    of the last code cell, and of the Python primitives they rely on
    ([int], [str], [str.split], [max], [dict.update], subscripting, [in]
    and [raise]).

    Conventions of the embedding:
    - Python integers are unbounded: [Z].
    - Python strings are [string]; only ASCII text is modelled, so the
      Unicode digits and Unicode white space that [int] also accepts are
      outside the model.
    - A Python [dict] with string keys is a [gmap string _]; no function
      modelled here depends on the order in which a dict is iterated.
    - A raised exception is the [Raise] case of [outcome]; only the class
      of the exception is kept.
    - The global [coll] and the network are threaded as a state; the state
      reached when an exception is raised is kept.
    - The two upstream services are transition functions on an abstract
      world state.
    - [print] has no counterpart.
    - The clock is a reading of the world state, in ticks.  The wrapper
      that the decorator [@limits] of the package [ratelimit] puts around
      [get_gene_loc] and [get_freq_by_interval], and [time.sleep], are
      modelled in the part on the clock; [get_gene_loc] and
      [get_freq_by_interval] themselves are the functions as they run
      once that wrapper has let the call through.

    The definitions come first; the second half of the file proves their
    properties. *)

From Stdlib Require Import ZArith String Ascii List Lia Sorted.
From stdpp Require Import base option gmap strings list fin_maps sorting.

Set Warnings "-register-all".
Local Open Scope Z_scope.

(* ===================================================================== *)
(** * Exceptions and outcomes *)
(* ===================================================================== *)

(** The classes of the exceptions the notebook can raise;
    [RateLimitException] is the one of the package [ratelimit]. *)
Inductive exn : Type :=
  | TypeError
  | ValueError
  | KeyError
  | IndexError
  | JSONDecodeError
  | OverflowError
  | RecursionError
  | RequestException
  | RateLimitException.

(** [LookupError] is Python's base class of [KeyError] and [IndexError]. *)
Definition is_LookupError (e : exn) : bool :=
  match e with
  | KeyError | IndexError => true
  | _ => false
  end.

Inductive outcome (A : Type) : Type :=
  | Ok (a : A)
  | Raise (e : exn).
Arguments Ok {A} a.
Arguments Raise {A} e.

Definition bind {A B : Type} (r : outcome A) (k : A → outcome B) : outcome B :=
  match r with
  | Ok a => k a
  | Raise e => Raise e
  end.

Notation "'let*' x ':=' r 'in' k" := (bind r (fun x => k))
  (at level 10, x pattern, r at level 100, k at level 200).

(** The statement [raise(<str>)]: the operand is evaluated, and because a
    [str] is not an exception the interpreter raises
    [TypeError: exceptions must derive from BaseException]; the text of the
    operand is not part of the exception. *)
Definition raise_str {A : Type} (msg : string) : outcome A := Raise TypeError.

(* ===================================================================== *)
(** * Python text primitives: [str(int)], [int(str)], [str.split] *)
(* ===================================================================== *)

Module Py.

(** ASCII white space as [int] skips it: TAB, LF, VT, FF, CR and space. *)
Definition is_space (c : ascii) : bool :=
  let n := Z.of_nat (nat_of_ascii c) in
  ((9 <=? n) && (n <=? 13)) || (n =? 32).

Definition digit_of (c : ascii) : option Z :=
  let n := Z.of_nat (nat_of_ascii c) in
  if (48 <=? n) && (n <=? 57) then Some (n - 48) else None.

Definition digit_char (d : Z) : ascii := ascii_of_nat (Z.to_nat (48 + d)).

Fixpoint all_space (s : string) : bool :=
  match s with
  | EmptyString => true
  | String c s' => is_space c && all_space s'
  end.

Fixpoint lstrip (s : string) : string :=
  match s with
  | EmptyString => EmptyString
  | String c s' => if is_space c then lstrip s' else s
  end.

(** The digits of a literal once a first digit has been read: further
    digits, single underscores each followed by a digit, then optional
    trailing white space up to the end of the text. *)
Fixpoint scan_digits (acc : Z) (s : string) : option Z :=
  match s with
  | EmptyString => Some acc
  | String c s' =>
      match digit_of c with
      | Some d => scan_digits (10 * acc + d) s'
      | None =>
          if Ascii.eqb c "_" then
            match s' with
            | String c' s'' =>
                match digit_of c' with
                | Some d => scan_digits (10 * acc + d) s''
                | None => None
                end
            | EmptyString => None
            end
          else if all_space s then Some acc else None
      end
  end.

Definition int_unsigned (s : string) : option Z :=
  match s with
  | String c s' =>
      match digit_of c with
      | Some d => scan_digits d s'
      | None => None
      end
  | EmptyString => None
  end.

(** [int(s)] in base 10: leading white space, an optional sign, the digits.
    A text that is not a literal raises [ValueError]. *)
Definition int (s : string) : outcome Z :=
  let body := lstrip s in
  let signed :=
    match body with
    | String c s' =>
        if Ascii.eqb c "-" then Z.opp <$> int_unsigned s'
        else if Ascii.eqb c "+" then int_unsigned s'
        else int_unsigned body
    | EmptyString => None
    end in
  match signed with
  | Some z => Ok z
  | None => Raise ValueError
  end.

(** The decimal digits of a non-negative integer, most significant first,
    pushed in front of [acc].  [fuel] bounds the number of digits. *)
Fixpoint str_digits (fuel : nat) (n : Z) (acc : string) : string :=
  match fuel with
  | O => acc
  | S fuel' =>
      let acc' := String (digit_char (n mod 10)) acc in
      if n <? 10 then acc' else str_digits fuel' (n / 10) acc'
  end.

(** One more than the binary logarithm: at least the number of decimal
    digits. *)
Definition digits_bound (n : Z) : nat := S (Z.to_nat (Z.log2 n)).

(** [str(z)] for an integer, as an f-string [{z}] renders it. *)
Definition str (z : Z) : string :=
  if z <? 0 then String "-" (str_digits (digits_bound (- z)) (- z) EmptyString)
  else str_digits (digits_bound z) z EmptyString.

(** [s.split(sep)] for a one-character separator: never an empty list. *)
Fixpoint split (sep : ascii) (s : string) : list string :=
  match s with
  | EmptyString => [EmptyString]
  | String c s' =>
      if Ascii.eqb c sep then EmptyString :: split sep s'
      else match split sep s' with
           | h :: t => String c h :: t
           | [] => [String c EmptyString]
           end
  end.

(** [max(l)] of a list: [ValueError] on an empty list. *)
Definition max (l : list Z) : outcome Z :=
  match l with
  | [] => Raise ValueError
  | x :: l' => Ok (fold_left Z.max l' x)
  end.

End Py.

(* ===================================================================== *)
(** * Decoded JSON and the Python operations applied to it *)
(* ===================================================================== *)

(** A Python [float] as far as the notebook can tell one from another:
    not a number, an infinity, or the finite value [m * 2 ^ e]. *)
Inductive pyfloat : Type :=
  | FNan
  | FInf
  | FFinite (m e : Z).

(** What [res.json()] returns.  A JSON number written as an integer
    decodes to an [int]; one written with a fraction or an exponent, and
    the literals [NaN] and [Infinity], decode to a [float]. *)
Inductive json : Type :=
  | JNull
  | JBool (b : bool)
  | JInt (z : Z)
  | JFloat (x : pyfloat)
  | JStr (s : string)
  | JArr (l : list json)
  | JObj (m : gmap string json).

(** [k in s] for two strings: [k] occurs in [s]. *)
Fixpoint contains (k s : string) : bool :=
  String.prefix k s ||
  match s with
  | EmptyString => false
  | String _ s' => contains k s'
  end.

Definition is_str (k : string) (v : json) : bool :=
  match v with
  | JStr s => String.eqb k s
  | _ => false
  end.

(** [k in v] for a string [k]: key membership in a dict, element
    membership in a list, substring test on a string, [TypeError] on
    [None], a bool or a number. *)
Definition py_in (k : string) (v : json) : outcome bool :=
  match v with
  | JObj m => Ok (bool_decide (is_Some (m !! k)))
  | JArr l => Ok (existsb (is_str k) l)
  | JStr s => Ok (contains k s)
  | JNull | JBool _ | JInt _ | JFloat _ => Raise TypeError
  end.

(** [v[k]] for a string [k]: [KeyError] on a dict without [k],
    [TypeError] on everything that is not a dict. *)
Definition subscript (v : json) (k : string) : outcome json :=
  match v with
  | JObj m =>
      match m !! k with
      | Some x => Ok x
      | None => Raise KeyError
      end
  | _ => Raise TypeError
  end.

(** [v[0]]: the first element of a list or the first character of a
    string, [IndexError] when there is none; a decoded JSON object has
    only string keys, so [0] is a [KeyError] there. *)
Definition subscript0 (v : json) : outcome json :=
  match v with
  | JArr (x :: _) => Ok x
  | JArr [] => Raise IndexError
  | JStr (String c _) => Ok (JStr (String c EmptyString))
  | JStr EmptyString => Raise IndexError
  | JObj _ => Raise KeyError
  | JNull | JBool _ | JInt _ | JFloat _ => Raise TypeError
  end.

(** [int(x)] for a float: the value cut off towards zero, [ValueError]
    for not-a-number, [OverflowError] for an infinity. *)
Definition int_of_float (x : pyfloat) : outcome Z :=
  match x with
  | FNan => Raise ValueError
  | FInf => Raise OverflowError
  | FFinite m e => Ok (if 0 <=? e then m * 2 ^ e else Z.quot m (2 ^ (- e)))
  end.

(** [int(v)]. *)
Definition int_of_json (v : json) : outcome Z :=
  match v with
  | JInt z => Ok z
  | JBool b => Ok (if b then 1 else 0)
  | JFloat x => int_of_float x
  | JStr s => Py.int s
  | JNull | JArr _ | JObj _ => Raise TypeError
  end.

(** An HTTP response as the notebook uses it: [res.status_code] and the
    outcome of [res.json()] ([JSONDecodeError] when the body is not
    JSON). *)
Record response : Type := Response {
  status_code : Z;
  json_of : outcome json
}.

(* ===================================================================== *)
(** * [get_next_interval_start] *)
(* ===================================================================== *)

(** The body of the loop for one key:
    [length, start = k.split('@')] needs exactly two fields, then
    [int(length) + int(start)]. *)
Definition key_stop (k : string) : outcome Z :=
  match Py.split "@" k with
  | [length; start] =>
      let* l := Py.int length in
      let* s := Py.int start in
      Ok (l + s)
  | _ => Raise ValueError
  end.

(** The [for] loop: the stops of all keys, in the order of the keys. *)
Fixpoint collect_stops (ks : list string) : outcome (list Z) :=
  match ks with
  | [] => Ok []
  | k :: ks' =>
      let* stop := key_stop k in
      let* stops := collect_stops ks' in
      Ok (stop :: stops)
  end.

Definition keys {V : Type} (d : gmap string V) : list string :=
  (map_to_list d).*1.

Definition get_next_interval_start {V : Type} (result : gmap string V)
  : outcome Z :=
  let* stops := collect_stops (keys result) in
  let* m := Py.max stops in
  Ok (m + 1).

(** The composite key of a variant, [<length>@<start>]. *)
Definition composite_key (length start : Z) : string :=
  Py.str length +:+ "@" +:+ Py.str start.

(* ===================================================================== *)
(** * State and exceptions *)
(* ===================================================================== *)

(** A computation that reads and writes a state [S] and either returns a
    value or raises; the state reached when the exception is raised is
    kept, as the globals of a Python process are. *)
Definition M (S A : Type) : Type := S → outcome A * S.

Definition lift {S A : Type} (r : outcome A) : M S A := λ s, (r, s).

Definition bindM {S A B : Type} (m : M S A) (k : A → M S B) : M S B :=
  λ s, match m s with
       | (Ok a, s') => k a s'
       | (Raise e, s') => (Raise e, s')
       end.

Notation "x <- m ;; k" := (bindM m (fun x => k))
  (at level 100, m at next level, right associativity).
Notation "m ;;; k" := (bindM m (fun _ => k))
  (at level 100, right associativity).

(* ===================================================================== *)
(** * [get_gene_loc] *)
(* ===================================================================== *)

Definition esum_url (gene_id : string) : string :=
  "https://eutils.ncbi.nlm.nih.gov/entrez/eutils/esummary.fcgi?db=gene&id="
  +:+ gene_id +:+ "&format=json".

(** The test
    ['result' not in data or gene_id not in data['result'] or
     'genomicinfo' not in data['result'][gene_id]],
    evaluated left to right with the short cut of [or]. *)
Definition location_missing (gene_id : string) (data : json) : outcome bool :=
  let* has_result := py_in "result" data in
  if negb has_result then Ok true else
  let* r := subscript data "result" in
  let* has_gene := py_in gene_id r in
  if negb has_gene then Ok true else
  let* r := subscript data "result" in
  let* g := subscript r gene_id in
  let* has_info := py_in "genomicinfo" g in
  Ok (negb has_info).

(** The part of [get_gene_loc] after the request. *)
Definition gene_loc_of_response (gene_id : string) (res : response)
  : outcome (json * Z * Z) :=
  if negb (status_code res =? 200) then
    raise_str "Failed to get gene information"
  else
    let* data := json_of res in
    let* missing := location_missing gene_id data in
    if missing then
      raise_str "Genomic information is not avaible for this gene"
    else
      let* r := subscript data "result" in
      let* g := subscript r gene_id in
      let* infos := subscript g "genomicinfo" in
      let* loc := subscript0 infos in
      let* chraccver := subscript loc "chraccver" in
      let* v := subscript loc "chrstart" in
      let* chrstart := int_of_json v in
      let* v := subscript loc "chrstop" in
      let* chrstop := int_of_json v in
      if chrstart >? chrstop then Ok (chraccver, chrstop, chrstart)
      else Ok (chraccver, chrstart, chrstop).

(* ===================================================================== *)
(** * [get_freq_by_interval] *)
(* ===================================================================== *)

(** The body of a reply of the frequency service.  The service documents
    it as a JSON object whose member ['results'] is an object from
    composite keys to records; the model covers such bodies, JSON objects
    without ['results'], and bodies that are not JSON.  Other shapes (a
    top-level array, ['results'] bound to a list or a scalar) are outside
    the model. *)
Inductive freq_body : Type :=
  | NotJson
  | NoResults
  | Results (records : gmap string json).

Record freq_response : Type := FreqResponse {
  freq_status : Z;
  freq_body_of : freq_body
}.

(** [res.json()] as far as it can fail. *)
Definition freq_json (res : freq_response) : outcome unit :=
  match freq_body_of res with
  | NotJson => Raise JSONDecodeError
  | _ => Ok tt
  end.

(** [res.json()['results']]. *)
Definition freq_results (res : freq_response) : outcome (gmap string json) :=
  match freq_body_of res with
  | NotJson => Raise JSONDecodeError
  | NoResults => Raise KeyError
  | Results records => Ok records
  end.

Definition interval_prefix : string :=
  "https://api.ncbi.nlm.nih.gov/variation/v0/interval/".
Definition interval_suffix : string := "/overlapping_frequency_records".

(** The path the service documents:
    [/interval/{seq_id}:{position}:{length}/overlapping_frequency_records]. *)
Definition interval_url (seq_id : string) (position length : Z) : string :=
  interval_prefix +:+ seq_id +:+ ":" +:+ Py.str position +:+ ":"
  +:+ Py.str length +:+ interval_suffix.

(** [api_url] of [get_freq_by_interval]. *)
Definition api_url (seq_id : string) (start stop : Z) : string :=
  "https://api.ncbi.nlm.nih.gov/variation/v0/interval/"
  +:+ seq_id +:+ ":" +:+ Py.str start +:+ ":" +:+ Py.str (stop - start + 1)
  +:+ "/overlapping_frequency_records".

(* ===================================================================== *)
(** * The functions on the network and the globals *)
(* ===================================================================== *)

Section Notebook.

(** The network: whatever decides the replies of the two services.
    [requests.get] may itself raise ([RequestException], no connection);
    the exception then passes through the notebook's functions. *)
Context {world : Type}.
Variable esummary : string → world → outcome response * world.
Variable frequency : string → world → outcome freq_response * world.

(** The globals of the notebook process: the network, the accumulator
    [coll], and (for the statements only) the requests made to the
    frequency service so far with their replies, oldest first. *)
Record globals : Type := Globals {
  net : world;
  coll : gmap string json;
  log : list (string * outcome freq_response)
}.

Definition get_gene_loc (gene_id : string)
  : M globals (json * Z * Z) :=
  λ g, let '(r, w) := esummary (esum_url gene_id) (net g) in
       (let* res := r in gene_loc_of_response gene_id res,
        Globals w (coll g) (log g)).

(** [requests.get(api_url)] on the frequency service. *)
Definition requests_get (url : string) : M globals freq_response :=
  λ g, let '(r, w) := frequency url (net g) in
       (r, Globals w (coll g) (log g ++ [(url, r)])).

(** [coll.update(d)]: the records of [d] replace those of [coll] with
    the same key. *)
Definition coll_update (d : gmap string json) : M globals unit :=
  λ g, (Ok tt, Globals (net g) (d ∪ coll g) (log g)).

Definition read_coll : M globals (gmap string json) :=
  λ g, (Ok (coll g), g).

(** [get_freq_by_interval], as it runs once the wrapper of [@limits] has
    let the call through.  The function calls itself once per partial
    page.  [depth] bounds the nesting, so that the recursion is
    well-founded: a call beyond it raises [RecursionError] before its body
    runs.  The interpreter raises [RecursionError] wherever its stack runs
    out, which may be in the middle of a body, after a reply was received
    and before it is merged; so of a run that ends with [RecursionError]
    the model says more of [coll] than is true of the program, and where
    that matters the theorems below leave such runs out.  The operand of
    each [raise] is an f-string: in the branch for a status of 400 or
    more it calls [res.json()], which can raise first. *)
Fixpoint get_freq_by_interval (depth : nat) (seq_id : string)
    (start stop : Z) : M globals unit :=
  match depth with
  | O => lift (Raise RecursionError)
  | S depth' =>
      res <- requests_get (api_url seq_id start stop) ;;
      if freq_status res =? 200 then
        page <- lift (freq_results res) ;;
        coll_update page
      else if freq_status res =? 206 then
        page <- lift (freq_results res) ;;
        coll_update page ;;;
        c <- read_coll ;;
        next <- lift (get_next_interval_start c) ;;
        get_freq_by_interval depth' seq_id next stop
      else if 400 <=? freq_status res then
        lift (freq_json res) ;;;
        lift (raise_str "API request returned with error code")
      else
        lift (raise_str "Unexpected return code")
  end.

(** The last code cell: [coll = {}] and the call. *)
Definition collect (depth : nat) (seq_id : string) (start stop : Z)
  : M globals unit :=
  λ g, get_freq_by_interval depth seq_id start stop
         (Globals (net g) ∅ (log g)).

(** The globals right after the request of a call. *)
Definition requested (g : globals) (url : string)
    (r : outcome freq_response) (w : world) : globals :=
  Globals w (coll g) (log g ++ [(url, r)]).

Definition merged_page (g : globals) (page : gmap string json)
  : globals :=
  Globals (net g) (page ∪ coll g) (log g).

(** The cases of one call, gathered. *)
Inductive call_case (depth : nat) (seq_id : string) (start stop : Z)
    (g : globals) : outcome unit * globals → Prop :=
  | Call_no_depth :
      depth = O → call_case depth seq_id start stop g (Raise RecursionError, g)
  | Call_request_raises depth' e w :
      depth = S depth' →
      frequency (api_url seq_id start stop) (net g) = (Raise e, w) →
      call_case depth seq_id start stop g
        (Raise e, requested g (api_url seq_id start stop) (Raise e) w)
  | Call_complete depth' res w page :
      depth = S depth' →
      frequency (api_url seq_id start stop) (net g) = (Ok res, w) →
      freq_status res = 200 → freq_body_of res = Results page →
      call_case depth seq_id start stop g
        (Ok tt, merged_page (requested g (api_url seq_id start stop) (Ok res) w) page)
  | Call_no_page depth' res w e :
      depth = S depth' →
      frequency (api_url seq_id start stop) (net g) = (Ok res, w) →
      freq_status res = 200 ∨ freq_status res = 206 →
      freq_results res = Raise e →
      (e = JSONDecodeError ∨ e = KeyError) →
      call_case depth seq_id start stop g
        (Raise e, requested g (api_url seq_id start stop) (Ok res) w)
  | Call_partial depth' res w page next :
      depth = S depth' →
      frequency (api_url seq_id start stop) (net g) = (Ok res, w) →
      freq_status res = 206 → freq_body_of res = Results page →
      get_next_interval_start (page ∪ coll g) = Ok next →
      call_case depth seq_id start stop g
        (get_freq_by_interval depth' seq_id next stop
           (merged_page (requested g (api_url seq_id start stop) (Ok res) w) page))
  | Call_partial_stuck depth' res w page :
      depth = S depth' →
      frequency (api_url seq_id start stop) (net g) = (Ok res, w) →
      freq_status res = 206 → freq_body_of res = Results page →
      get_next_interval_start (page ∪ coll g) = Raise ValueError →
      call_case depth seq_id start stop g
        (Raise ValueError,
         merged_page (requested g (api_url seq_id start stop) (Ok res) w) page)
  | Call_error_status depth' res w :
      depth = S depth' →
      frequency (api_url seq_id start stop) (net g) = (Ok res, w) →
      400 <= freq_status res →
      call_case depth seq_id start stop g
        (match freq_json res with
         | Ok _ => Raise TypeError
         | Raise e => Raise e
         end, requested g (api_url seq_id start stop) (Ok res) w)
  | Call_other_status depth' res w :
      depth = S depth' →
      frequency (api_url seq_id start stop) (net g) = (Ok res, w) →
      freq_status res ≠ 200 → freq_status res ≠ 206 → freq_status res < 400 →
      call_case depth seq_id start stop g
        (Raise TypeError, requested g (api_url seq_id start stop) (Ok res) w).

End Notebook.

Arguments Globals {world} net coll log.
Arguments net {world} g.
Arguments coll {world} g.
Arguments log {world} g.

(* ===================================================================== *)
(** * The clock: [@limits] and [time.sleep] *)
(* ===================================================================== *)

(** The state that one decorator [@limits(calls=1, period=1)] keeps, in
    the package [ratelimit]: the reading of the clock at which the current
    period began, and the calls counted in that period.  The package is
    not part of the repository; this part follows its documentation,
    by which a call beyond the allowed number within the period raises
    [RateLimitException] (it is the other decorator of the package,
    [sleep_and_retry], that waits, and the notebook does not use it). *)
Record limiter : Type := Limiter {
  last_reset : Z;
  num_calls : nat
}.

(** What the wrapper does before it calls the function, at the reading
    [now] of the clock:
      [period_remaining = period - (clock() - last_reset)],
      [if period_remaining <= 0: num_calls = 0; last_reset = clock()],
      [num_calls += 1],
      [if num_calls > calls: raise RateLimitException(...)].
    It never waits. *)
Definition limits (calls : nat) (period : Z) (now : Z) : M limiter unit :=
  λ l, let begun :=
         if period - (now - last_reset l) <=? 0 then Limiter now 0 else l in
       let counted := Limiter (last_reset begun) (S (num_calls begun)) in
       (if (calls <? num_calls counted)%nat
        then Raise RateLimitException else Ok tt,
        counted).

Section Clock.

Context {world : Type}.

(** The length of a second in ticks of the clock, the reading of the
    clock in a world, and the world after [time.sleep(secs)]. *)
Variable second : Z.
Variable clock : world → Z.
Variable sleep : Z → world → world.
Variable esummary : string → world → outcome response * world.
Variable frequency : string → world → outcome freq_response * world.

(** The notebook process with its clock: the globals, the limiter of each
    of the two decorated functions, and (for the statements only) the
    reading of the clock and the URL of every request sent, oldest
    first. *)
Record process : Type := Process {
  globals_of : @globals world;
  gene_limiter : limiter;
  freq_limiter : limiter;
  sent : list (Z * string)
}.

Definition now (p : process) : Z := clock (net (globals_of p)).

(** [get_gene_loc] as decorated: the wrapper, then the function. *)
Definition limited_get_gene_loc (gene_id : string) : M process (json * Z * Z) :=
  λ p, let '(pass, l) := limits 1 second (now p) (gene_limiter p) in
       match pass with
       | Raise e => (Raise e, Process (globals_of p) l (freq_limiter p) (sent p))
       | Ok _ =>
           let '(r, g) := get_gene_loc esummary gene_id (globals_of p) in
           (r, Process g l (freq_limiter p) (sent p ++ [(now p, esum_url gene_id)]))
       end.

(** The wrapper of [get_freq_by_interval]. *)
Definition check_freq_limiter : M process unit :=
  λ p, let '(pass, l) := limits 1 second (now p) (freq_limiter p) in
       (pass, Process (globals_of p) (gene_limiter p) l (sent p)).

(** A step on the globals is a step of the process. *)
Definition on_globals {A : Type} (m : M (@globals world) A) : M process A :=
  λ p, let '(r, g) := m (globals_of p) in
       (r, Process g (gene_limiter p) (freq_limiter p) (sent p)).

(** [requests.get(api_url)], with the reading of the clock noted. *)
Definition timed_get (url : string) : M process freq_response :=
  λ p, let '(r, g) := requests_get frequency url (globals_of p) in
       (r, Process g (gene_limiter p) (freq_limiter p) (sent p ++ [(now p, url)])).

(** [time.sleep(secs)]. *)
Definition time_sleep (secs : Z) : M process unit :=
  λ p, let g := globals_of p in
       (Ok tt, Process (Globals (sleep secs (net g)) (coll g) (log g))
                 (gene_limiter p) (freq_limiter p) (sent p)).

(** [get_freq_by_interval] as decorated.  The name the function calls in
    its last line is the decorated one, so every nested call goes through
    the wrapper again; [time.sleep(1)] comes after the page is merged and
    before the argument [get_next_interval_start(coll)] is evaluated. *)
Fixpoint limited_get_freq_by_interval (depth : nat) (seq_id : string)
    (start stop : Z) : M process unit :=
  match depth with
  | O => lift (Raise RecursionError)
  | S depth' =>
      check_freq_limiter ;;;
      res <- timed_get (api_url seq_id start stop) ;;
      if freq_status res =? 200 then
        page <- lift (freq_results res) ;;
        on_globals (coll_update page)
      else if freq_status res =? 206 then
        page <- lift (freq_results res) ;;
        on_globals (coll_update page) ;;;
        time_sleep second ;;;
        c <- on_globals read_coll ;;
        next <- lift (get_next_interval_start c) ;;
        limited_get_freq_by_interval depth' seq_id next stop
      else if 400 <=? freq_status res then
        lift (freq_json res) ;;;
        lift (raise_str "API request returned with error code")
      else
        lift (raise_str "Unexpected return code")
  end.

(** The frequency service as the paginator meets it: the notebook sleeps
    after every partial page it could read, before anything else reaches
    the network. *)
Definition with_sleep (url : string) (w : world)
  : outcome freq_response * world :=
  let '(r, w') := frequency url w in
  (r, match r with
      | Ok res =>
          match freq_status res =? 206, freq_results res with
          | true, Ok _ => sleep second w'
          | _, _ => w'
          end
      | Raise _ => w'
      end).

End Clock.

Arguments Process {world} globals_of gene_limiter freq_limiter sent.
Arguments globals_of {world} p.
Arguments gene_limiter {world} p.
Arguments freq_limiter {world} p.
Arguments sent {world} p.

(* ===================================================================== *)
(** * Stand-ins for the frequency service *)
(* ===================================================================== *)

(** A service that plays a fixed list of replies, one per request, and
    refuses the connection once the list is used up. *)
Definition scripted (url : string) (script : list freq_response)
  : outcome freq_response * list freq_response :=
  match script with
  | res :: script' => (Ok res, script')
  | [] => (Raise RequestException, [])
  end.

(** A frequency service that gives the same reply to every request. *)
Definition repeating (res : freq_response) (url : string) (w : unit)
  : outcome freq_response * unit := (Ok res, w).

(** The frequency service as the text of the notebook describes it: it
    "finds all variants overlapping with that interval", it "only returns
    the first 250 variants", "by position", and when there are more it
    "uses the http status code 206".  The page size is a parameter here.
    The service itself is not part of the notebook; this stand-in fixes
    what the text leaves open in the way most favourable to the
    paginator: a variant counts as overlapping up to and including the
    position [start + length] that [get_next_interval_start] takes for
    its stop. *)
Module Service.

(** A variant, as its composite key spells it: [(length, start)]. *)
Definition variant : Type := Z * Z.

Definition key_of (v : variant) : string := composite_key v.1 v.2.

(** The variant covers [start .. start + length]; the interval covers
    [position .. position + length - 1]. *)
Definition overlaps (position length : Z) (v : variant) : bool :=
  (v.2 <=? position + length - 1) && (position <=? v.2 + v.1).

Fixpoint insert_by_start (v : variant) (l : list variant) : list variant :=
  match l with
  | [] => [v]
  | u :: l' => if v.2 <? u.2 then v :: l else u :: insert_by_start v l'
  end.

Definition sort_by_start (l : list variant) : list variant :=
  foldr insert_by_start [] l.

Definition hits (db : list variant) (position length : Z) : list variant :=
  filter (λ v, overlaps position length v = true) (sort_by_start db).

Definition records (vs : list variant) : gmap string json :=
  list_to_map ((λ v, (key_of v, JNull)) <$> vs).

Definition answer (page_size : nat) (db : list variant)
    (position length : Z) : freq_response :=
  let found := hits db position length in
  if (List.length found <=? page_size)%nat
  then FreqResponse 200 (Results (records found))
  else FreqResponse 206 (Results (records (take page_size found))).

Fixpoint strip_prefix (p s : string) : option string :=
  match p, s with
  | EmptyString, _ => Some s
  | String a p', String b s' =>
      if Ascii.eqb a b then strip_prefix p' s' else None
  | String _ _, EmptyString => None
  end.

(** [s.rsplit(sep, 1)] when [sep] occurs in [s]. *)
Fixpoint rsplit1 (sep : ascii) (s : string) : option (string * string) :=
  match s with
  | EmptyString => None
  | String c s' =>
      match rsplit1 sep s' with
      | Some (a, b) => Some (String c a, b)
      | None => if Ascii.eqb c sep then Some (EmptyString, s') else None
      end
  end.

Definition to_option {A : Type} (r : outcome A) : option A :=
  match r with Ok a => Some a | Raise _ => None end.

(** Reading [{seq_id}:{position}:{length}] back from a request. *)
Definition decode (url : string) : option (string * Z * Z) :=
  rest ← strip_prefix interval_prefix url;
  '(target, tail) ← rsplit1 "/" rest;
  if negb (String.eqb tail "overlapping_frequency_records") then None else
  '(front, length) ← rsplit1 ":" target;
  '(seq_id, position) ← rsplit1 ":" front;
  p ← to_option (Py.int position);
  n ← to_option (Py.int length);
  Some (seq_id, p, n).

Definition frequency (page_size : nat) (db : list variant)
    (url : string) (w : unit) : outcome freq_response * unit :=
  match decode url with
  | Some (_, position, length) => (Ok (answer page_size db position length), w)
  | None => (Ok (FreqResponse 404 NotJson), w)
  end.

End Service.

(* ===================================================================== *)
(** * Notions used in the statements *)
(* ===================================================================== *)

(** The characters of a rendered integer: the ten digits and the minus
    sign. *)
Definition numeral_char (c : ascii) : bool :=
  match Py.digit_of c with
  | Some _ => true
  | None => Ascii.eqb c "-"
  end.

Definition other_than (sep : ascii) (c : ascii) : bool := negb (Ascii.eqb c sep).

Fixpoint string_forall (p : ascii → bool) (s : string) : bool :=
  match s with
  | EmptyString => true
  | String c s' => p c && string_forall p s'
  end.

(** [k] reads as [<length>@<start>]: two fields around one [@], each an
    integer literal for [int]. *)
Definition reads_as (k : string) (length start : Z) : Prop :=
  ∃ a b, Py.split "@" k = [a; b] ∧ Py.int a = Ok length ∧ Py.int b = Ok start.

(** The page a reply delivers: the records under ['results'] of a reply
    with status 200 or 206; nothing for any other reply. *)
Definition page_of (r : outcome freq_response) : gmap string json :=
  match r with
  | Ok (FreqResponse status (Results records)) =>
      if (status =? 200) || (status =? 206) then records else ∅
  | _ => ∅
  end.

Definition status_of (r : outcome freq_response) : option Z :=
  match r with
  | Ok res => Some (freq_status res)
  | Raise _ => None
  end.

(** A reply of a successful partial page: status 206 with records. *)
Definition partial_reply (r : outcome freq_response) : Prop :=
  ∃ res page,
    r = Ok res ∧ freq_status res = 206 ∧ freq_body_of res = Results page.

(** All pages merged in the order of arrival, later pages on top. *)
Definition merged (replies : list (outcome freq_response))
    (start : gmap string json) : gmap string json :=
  foldl (λ acc r, page_of r ∪ acc) start replies.

(** The three ways the test finds the location missing. *)
Inductive lacks_location (gene_id : string) (data : gmap string json) : Prop :=
  | Lacks_result :
      data !! "result"%string = None → lacks_location gene_id data
  | Lacks_gene result :
      data !! "result"%string = Some (JObj result) →
      result !! gene_id = None → lacks_location gene_id data
  | Lacks_genomicinfo result gene :
      data !! "result"%string = Some (JObj result) →
      result !! gene_id = Some (JObj gene) →
      gene !! "genomicinfo"%string = None → lacks_location gene_id data.

(** Every key of [c] is the key of a variant of [db] that overlaps the
    interval from [start] to [stop]. *)
Definition from_hits (db : list Service.variant) (start stop : Z)
    (c : gmap string json) : Prop :=
  ∀ k, k ∈ dom c →
    ∃ v, v ∈ Service.hits db start (stop - start + 1) ∧ k = Service.key_of v.

(** Every key of [c] is a composite key whose stop lies before [s]. *)
Definition stops_below (s : Z) (c : gmap string json) : Prop :=
  ∀ k, k ∈ dom c → ∃ l st, k = composite_key l st ∧ l + st < s.

(** The least number of pages of [b] records that hold [a] records. *)
Definition ceil_div (a b : nat) : nat := ((a + b - 1) / b)%nat.

(** Distinct variants of [vs] start at distinct positions, and the one
    that starts later also stops later. *)
Definition stops_follow_starts (vs : list Service.variant) : Prop :=
  ∀ u v, u ∈ vs → v ∈ vs → u ≠ v → u.2 <= v.2 →
         u.2 < v.2 ∧ u.1 + u.2 < v.1 + v.2.

(** Each reading of the clock is at least [gap] ticks after the one
    before it. *)
Definition spaced (gap : Z) (times : list Z) : Prop :=
  Sorted (λ a b, a + gap <= b) times.

(* ===================================================================== *)
(** * Sample data *)
(* ===================================================================== *)

Local Open Scope string_scope.

(** Sample data: the summary of gene 7157 (TP53, on the minus strand). *)
Definition tp53_loc : gmap string json :=
  {[ "chraccver" := JStr "NC_000017.11";
     "chrstart" := JInt 7687489;
     "chrstop" := JInt 7668420 ]}.
Definition tp53_gene : gmap string json :=
  {[ "genomicinfo" := JArr [JObj tp53_loc] ]}.
Definition tp53_result : gmap string json := {[ "7157" := JObj tp53_gene ]}.
Definition tp53_data : gmap string json := {[ "result" := JObj tp53_result ]}.
Definition tp53_reply : response := Response 200 (Ok (JObj tp53_data)).

(** A summary service that always gives the same reply. *)
Definition always (res : response) (url : string) (w : unit)
  : outcome response * unit := (Ok res, w).

Definition start_globals {world : Type} (w : world) : @globals world :=
  Globals w ∅ [].

Definition two_keys : gmap string json :=
  {[ "10@0" := JNull; "5@20" := JNull ]}.

Definition partial_page : gmap string json := {[ "1@5" := JNull ]}.

(** Five variants that all stop at position 6. *)
Definition five_variants : list Service.variant :=
  [(5, 1); (4, 2); (3, 3); (2, 4); (1, 5)].

Definition failing_script : list freq_response :=
  [FreqResponse 206 (Results partial_page); FreqResponse 500 NoResults].

(** A summary whose gene entry has an empty [genomicinfo] list. *)
Definition bare_gene : gmap string json := {[ "genomicinfo" := JArr [] ]}.
Definition bare_result : gmap string json := {[ "7157" := JObj bare_gene ]}.
Definition bare_data : gmap string json := {[ "result" := JObj bare_result ]}.

(** The accumulator after a first page, and a second page. *)
Definition first_page : gmap string json := {[ "10@0" := JNull ]}.
Definition second_page : gmap string json := {[ "5@20" := JNull ]}.

(** 501 variants that all stop at position 1000. *)
Definition many_variants : list Service.variant :=
  (λ k, (Z.of_nat k, 1000 - Z.of_nat k)) <$> List.seq 1 501.

(** A first record without [chrstop]. *)
Definition short_loc : gmap string json :=
  {[ "chraccver" := JStr "NC_000017.11"; "chrstart" := JInt 7687489 ]}.
Definition short_gene : gmap string json :=
  {[ "genomicinfo" := JArr [JObj short_loc] ]}.
Definition short_result : gmap string json := {[ "7157" := JObj short_gene ]}.
Definition short_data : gmap string json := {[ "result" := JObj short_result ]}.

(** A first record whose [chrstart] is not an integer literal. *)
Definition odd_loc : gmap string json :=
  {[ "chraccver" := JStr "NC_000017.11";
     "chrstart" := JStr "7.6e6";
     "chrstop" := JInt 7668420 ]}.
Definition odd_gene : gmap string json :=
  {[ "genomicinfo" := JArr [JObj odd_loc] ]}.
Definition odd_result : gmap string json := {[ "7157" := JObj odd_gene ]}.
Definition odd_data : gmap string json := {[ "result" := JObj odd_result ]}.

Definition two_page_script : list freq_response :=
  [FreqResponse 206 (Results partial_page); FreqResponse 200 (Results second_page)].

(** Five variants of length 1 that start at 10, 20, 30, 40 and 50. *)
Definition ordered_variants : list Service.variant :=
  [(1, 10); (1, 20); (1, 30); (1, 40); (1, 50)].

(** A world with a clock that counts milliseconds: the reading of the
    clock and the replies the frequency service has still to give.  Every
    request takes 300 ms, and a sleep lasts as long as it is asked to. *)
Definition timed_world : Type := Z * list freq_response.

Definition reading (w : timed_world) : Z := w.1.

Definition wake (secs : Z) (w : timed_world) : timed_world := (w.1 + secs, w.2).

Definition quick_summary (res : response) (url : string) (w : timed_world)
  : outcome response * timed_world := (Ok res, (w.1 + 300, w.2)).

Definition quick_frequency (url : string) (w : timed_world)
  : outcome freq_response * timed_world :=
  match w.2 with
  | res :: script => (Ok res, (w.1 + 300, script))
  | [] => (Raise RequestException, (w.1 + 300, []))
  end.

(** The process at the reading [t], both functions decorated at the
    reading 0 and not called since. *)
Definition fresh_process (t : Z) (script : list freq_response)
  : @process timed_world :=
  Process (Globals (t, script) ∅ []) (Limiter 0 0) (Limiter 0 0) [].

(** The same process when each limiter has counted a call in a period
    that is still running. *)
Definition busy_process (t : Z) (script : list freq_response)
  : @process timed_world :=
  Process (Globals (t, script) ∅ []) (Limiter (t - 200) 1) (Limiter (t - 100) 1) [].

Local Close Scope string_scope.

(* ===================================================================== *)
(** * Facts about the text primitives *)
(* ===================================================================== *)

(** ** The primitives on samples *)

Example int_of_float_positive : int_of_float (FFinite 15 (-1)) = Ok 7.
Proof. reflexivity. Qed.

Example int_of_float_negative : int_of_float (FFinite (-15) (-1)) = Ok (-7).
Proof. reflexivity. Qed.

Example int_of_float_large : int_of_float (FFinite 5 3) = Ok 40.
Proof. reflexivity. Qed.

Example int_plain : Py.int "203" = Ok 203.
Proof. reflexivity. Qed.

Example int_signed_spaced : Py.int " -12 " = Ok (-12).
Proof. reflexivity. Qed.

Example int_underscore : Py.int "1_000" = Ok 1000.
Proof. reflexivity. Qed.

Example int_leading_zeros : Py.int "007" = Ok 7.
Proof. reflexivity. Qed.

Example int_double_underscore : Py.int "1__0" = Raise ValueError.
Proof. reflexivity. Qed.

Example int_sign_then_space : Py.int "- 1" = Raise ValueError.
Proof. reflexivity. Qed.

Example int_inner_space : Py.int "1 2" = Raise ValueError.
Proof. reflexivity. Qed.

Example int_empty : Py.int "" = Raise ValueError.
Proof. reflexivity. Qed.

Example str_positive : Py.str 7676154 = "7676154"%string.
Proof. reflexivity. Qed.

Example str_negative : Py.str (-40) = "-40"%string.
Proof. reflexivity. Qed.

Example str_zero : Py.str 0 = "0"%string.
Proof. reflexivity. Qed.

Example split_key : Py.split "@" "5@20" = ["5"; "20"]%string.
Proof. reflexivity. Qed.

Example split_no_separator : Py.split "@" "520" = ["520"]%string.
Proof. reflexivity. Qed.

Example split_two_separators : Py.split "@" "5@2@0" = ["5"; "2"; "0"]%string.
Proof. reflexivity. Qed.

Example split_empty : Py.split "@" "" = [""]%string.
Proof. reflexivity. Qed.

Example key_stop_short : key_stop "520" = Raise ValueError.
Proof. reflexivity. Qed.

(** ** Decimal digits *)

Lemma digit_cases (d : Z) :
  0 <= d <= 9 →
  d = 0 ∨ d = 1 ∨ d = 2 ∨ d = 3 ∨ d = 4 ∨ d = 5 ∨ d = 6 ∨ d = 7 ∨ d = 8 ∨ d = 9.
Proof. lia. Qed.

Ltac each_digit d H :=
  destruct (digit_cases d H) as [->|[->|[->|[->|[->|[->|[->|[->|[->| ->]]]]]]]]].

Lemma digit_of_char (d : Z) : 0 <= d <= 9 → Py.digit_of (Py.digit_char d) = Some d.
Proof. intros H. each_digit d H; reflexivity. Qed.

Lemma digit_char_not_space (d : Z) : 0 <= d <= 9 → Py.is_space (Py.digit_char d) = false.
Proof. intros H. each_digit d H; reflexivity. Qed.

Lemma digit_char_numeral (d : Z) : 0 <= d <= 9 → numeral_char (Py.digit_char d) = true.
Proof. intros H. unfold numeral_char. by rewrite digit_of_char. Qed.

Lemma mod10_digit (n : Z) : 0 <= n mod 10 <= 9.
Proof. pose proof (Z.mod_pos_bound n 10). lia. Qed.

Lemma str_digits_numeral (fuel : nat) (n : Z) (acc : string) :
  string_forall numeral_char acc = true →
  string_forall numeral_char (Py.str_digits fuel n acc) = true.
Proof.
  revert n acc. induction fuel as [|fuel IH]; intros n acc Hacc; [done|].
  cbn [Py.str_digits].
  assert (Hnew : string_forall numeral_char
                   (String (Py.digit_char (n mod 10)) acc) = true).
  { cbn [string_forall]. rewrite digit_char_numeral by apply mod10_digit. done. }
  destruct (n <? 10); [done|]. by apply IH.
Qed.

Lemma str_numeral (z : Z) : string_forall numeral_char (Py.str z) = true.
Proof.
  unfold Py.str. destruct (z <? 0).
  - cbn [string_forall]. rewrite str_digits_numeral; done.
  - by apply str_digits_numeral.
Qed.

(** Reading back the digits that [str_digits] wrote. *)
Lemma scan_digit_char (a d : Z) (s : string) :
  0 <= d <= 9 →
  Py.scan_digits a (String (Py.digit_char d) s) = Py.scan_digits (10 * a + d) s.
Proof. intros H. cbn [Py.scan_digits]. by rewrite digit_of_char. Qed.

Lemma int_unsigned_digit_char (d : Z) (s : string) :
  0 <= d <= 9 →
  Py.int_unsigned (String (Py.digit_char d) s) = Py.scan_digits d s.
Proof. intros H. cbn [Py.int_unsigned]. by rewrite digit_of_char. Qed.

Lemma str_digits_scan (fuel : nat) (n : Z) (acc : string) :
  (0 < fuel)%nat → 0 <= n < 2 ^ Z.of_nat fuel →
  Py.int_unsigned (Py.str_digits fuel n acc) = Py.scan_digits n acc ∧
  ∃ k, 0 <= k ∧
    ∀ a, Py.scan_digits a (Py.str_digits fuel n acc)
         = Py.scan_digits (a * 10 ^ k + n) acc.
Proof.
  revert n acc. induction fuel as [|fuel IH]; intros n acc Hfuel Hn; [lia|].
  cbn [Py.str_digits]. destruct (Z.ltb_spec n 10) as [Hlt|Hge].
  - rewrite Z.mod_small by lia. split.
    + apply int_unsigned_digit_char; lia.
    + exists 1. split; [lia|]. intros a. rewrite scan_digit_char by lia.
      f_equal. lia.
  - assert (Hpow : 2 ^ Z.of_nat (S fuel) = 2 * 2 ^ Z.of_nat fuel).
    { rewrite Nat2Z.inj_succ, Z.pow_succ_r by lia. done. }
    assert (Hdiv : 1 <= n / 10 < 2 ^ Z.of_nat fuel).
    { split.
      - apply Z.div_le_lower_bound; lia.
      - apply Z.div_lt_upper_bound; lia. }
    assert (Hfuel' : (0 < fuel)%nat).
    { destruct fuel; [cbn in Hdiv; lia | lia]. }
    destruct (IH (n / 10) (String (Py.digit_char (n mod 10)) acc) Hfuel')
      as [Hint [k [Hk Hscan]]]; [lia|].
    pose proof (mod10_digit n) as Hd.
    pose proof (Z.div_mod n 10 ltac:(lia)) as Hdm.
    split.
    + rewrite Hint, scan_digit_char by done. f_equal. lia.
    + exists (k + 1). split; [lia|]. intros a.
      rewrite Hscan, scan_digit_char by done. f_equal.
      rewrite Z.pow_add_r by lia. lia.
Qed.

Lemma digits_bound_spec (n : Z) :
  0 <= n → (0 < Py.digits_bound n)%nat ∧ n < 2 ^ Z.of_nat (Py.digits_bound n).
Proof.
  intros Hn. unfold Py.digits_bound. split; [lia|].
  rewrite Nat2Z.inj_succ, Z2Nat.id by apply Z.log2_nonneg.
  destruct (Z.eq_dec n 0) as [->|Hne]; [done|].
  apply Z.log2_spec. lia.
Qed.

Lemma str_digits_head (fuel : nat) (n : Z) (acc : string) :
  (0 < fuel)%nat →
  ∃ d rest, 0 <= d <= 9 ∧ Py.str_digits fuel n acc = String (Py.digit_char d) rest.
Proof.
  revert n acc. induction fuel as [|fuel IH]; intros n acc Hfuel; [lia|].
  cbn [Py.str_digits]. destruct (n <? 10).
  - exists (n mod 10), acc. split; [apply mod10_digit | done].
  - destruct fuel as [|fuel'].
    + exists (n mod 10), acc. split; [apply mod10_digit | done].
    + apply IH. lia.
Qed.

(** [int(str(z)) == z]. *)
Lemma int_str (z : Z) : Py.int (Py.str z) = Ok z.
Proof.
  unfold Py.str. destruct (Z.ltb_spec z 0) as [Hneg|Hpos].
  - destruct (digits_bound_spec (- z)) as [Hf Hb]; [lia|].
    destruct (str_digits_scan _ (- z) EmptyString Hf) as [Hint _]; [lia|].
    unfold Py.int. cbn [Py.lstrip]. change (Py.is_space "-") with false.
    cbn iota. change (Ascii.eqb "-" "-") with true. cbn iota.
    rewrite Hint. cbn. f_equal. lia.
  - destruct (digits_bound_spec z) as [Hf Hb]; [lia|].
    destruct (str_digits_scan _ z EmptyString Hf) as [Hint _]; [lia|].
    destruct (str_digits_head _ z EmptyString Hf) as (d & rest & Hd & Heq).
    unfold Py.int. rewrite Heq in *. cbn [Py.lstrip].
    rewrite digit_char_not_space by done.
    assert (Hm : Ascii.eqb (Py.digit_char d) "-" = false) by (each_digit d Hd; reflexivity).
    assert (Hp : Ascii.eqb (Py.digit_char d) "+" = false) by (each_digit d Hd; reflexivity).
    rewrite Hm, Hp, Hint. done.
Qed.

(** ** [split] on a text around one separator *)

Lemma string_forall_impl (p q : ascii → bool) (s : string) :
  (∀ c, p c = true → q c = true) →
  string_forall p s = true → string_forall q s = true.
Proof.
  intros Hpq. induction s as [|c s IH]; [done|]. cbn [string_forall].
  rewrite !andb_true_iff. intros [Hc Hs]. auto.
Qed.

Lemma string_forall_app (p : ascii → bool) (s t : string) :
  string_forall p (s +:+ t) = string_forall p s && string_forall p t.
Proof.
  induction s as [|c s IH]; [done|].
  change (String c s +:+ t) with (String c (s +:+ t)).
  cbn [string_forall]. rewrite IH. by rewrite andb_assoc.
Qed.

Lemma split_whole (sep : ascii) (s : string) :
  string_forall (other_than sep) s = true → Py.split sep s = [s].
Proof.
  induction s as [|c s IH]; [done|]. cbn [string_forall Py.split].
  rewrite andb_true_iff. unfold other_than at 1. intros [Hc Hs].
  apply negb_true_iff in Hc. rewrite Hc, IH by done. done.
Qed.

Lemma split_at_sep (sep : ascii) (a b : string) :
  string_forall (other_than sep) a = true →
  Py.split sep (a +:+ String sep b) = a :: Py.split sep b.
Proof.
  induction a as [|c a IH]; cbn [string_forall].
  - intros _. change (EmptyString +:+ String sep b) with (String sep b).
    cbn [Py.split]. by rewrite Ascii.eqb_refl.
  - rewrite andb_true_iff. unfold other_than at 1. intros [Hc Ha].
    apply negb_true_iff in Hc.
    change (String c a +:+ String sep b) with (String c (a +:+ String sep b)).
    cbn [Py.split]. rewrite Hc, IH by done. done.
Qed.

Lemma numeral_not_at (c : ascii) :
  numeral_char c = true → other_than "@" c = true.
Proof.
  destruct c as [[] [] [] [] [] [] [] []]; vm_compute; congruence.
Qed.

Lemma str_no_at (z : Z) : string_forall (other_than "@") (Py.str z) = true.
Proof. eapply string_forall_impl; [apply numeral_not_at | apply str_numeral]. Qed.

Lemma split_composite_key (l s : Z) :
  Py.split "@" (composite_key l s) = [Py.str l; Py.str s].
Proof.
  unfold composite_key.
  change ("@" +:+ Py.str s) with (String "@" (Py.str s)).
  rewrite split_at_sep by apply str_no_at.
  by rewrite split_whole by apply str_no_at.
Qed.

(** The loop body on a well-formed key. *)
Lemma key_stop_composite (l s : Z) : key_stop (composite_key l s) = Ok (l + s).
Proof.
  unfold key_stop. rewrite split_composite_key, !int_str. done.
Qed.

(** A composite key determines its variant. *)
Lemma parse_composite (l s : Z) :
  Py.int <$> Py.split "@" (composite_key l s) = [Ok l; Ok s].
Proof. rewrite split_composite_key. cbn. by rewrite !int_str. Qed.

Lemma composite_key_inj (l s l' s' : Z) :
  composite_key l s = composite_key l' s' → l = l' ∧ s = s'.
Proof.
  intros Heq. pose proof (parse_composite l s) as H1.
  rewrite Heq, parse_composite in H1. by inversion H1.
Qed.

(** ** Exceptions of the text primitives *)

Lemma int_raises (s : string) (e : exn) : Py.int s = Raise e → e = ValueError.
Proof. unfold Py.int. destruct (match Py.lstrip s with EmptyString => _ | _ => _ end); congruence. Qed.

Lemma key_stop_raises (k : string) (e : exn) : key_stop k = Raise e → e = ValueError.
Proof.
  unfold key_stop.
  destruct (Py.split "@" k) as [|a [|b [|c t]]]; try congruence.
  destruct (Py.int a) eqn:Ha; cbn.
  - destruct (Py.int b) eqn:Hb; cbn; [congruence|].
    intros [= <-]. by eapply int_raises.
  - intros [= <-]. by eapply int_raises.
Qed.

Lemma collect_stops_ok (ks : list string) (stops : list Z) :
  collect_stops ks = Ok stops ↔ Forall2 (λ k v, key_stop k = Ok v) ks stops.
Proof.
  revert stops. induction ks as [|k ks IH]; intros stops; cbn [collect_stops].
  - split; [intros [= <-]; constructor | intros H; by inversion H].
  - destruct (key_stop k) as [v|e] eqn:Hk; cbn.
    + destruct (collect_stops ks) as [vs|e] eqn:Hks; cbn.
      * split.
        -- intros [= <-]. constructor; [done | by apply IH].
        -- intros H. inversion H as [|? v' ? vs' Hv Hrest]; subst.
           apply IH in Hrest. congruence.
      * split; [congruence|]. intros H.
        inversion H as [|? v' ? vs' Hv Hrest]; subst.
        apply IH in Hrest. congruence.
    + split; [congruence|]. intros H. inversion H; congruence.
Qed.

Lemma collect_stops_total (ks : list string) :
  (∀ k, k ∈ ks → ∃ v, key_stop k = Ok v) → ∃ stops, collect_stops ks = Ok stops.
Proof.
  induction ks as [|k ks IH]; intros Hall; [by exists []|].
  destruct (Hall k) as [v Hv]; [left|].
  destruct IH as [vs Hvs]; [intros k' Hk'; apply Hall; by right|].
  exists (v :: vs). cbn [collect_stops]. by rewrite Hv, Hvs.
Qed.

Lemma collect_stops_raises (ks : list string) (e : exn) :
  collect_stops ks = Raise e →
  e = ValueError ∧ ∃ k, k ∈ ks ∧ key_stop k = Raise ValueError.
Proof.
  induction ks as [|k ks IH]; cbn [collect_stops]; [congruence|].
  destruct (key_stop k) as [v|e'] eqn:Hk; cbn.
  - destruct (collect_stops ks) as [vs|e'] eqn:Hks; cbn; [congruence|].
    intros [= <-]. destruct IH as [-> (k' & Hin & Hk')]; [done|].
    split; [done|]. exists k'. split; [by right | done].
  - intros [= <-]. pose proof (key_stop_raises _ _ Hk) as ->.
    split; [done|]. exists k. split; [left | done].
Qed.

(** ** [max] *)

Lemma fold_max_spec (l : list Z) (x : Z) :
  (fold_left Z.max l x = x ∨ fold_left Z.max l x ∈ l) ∧
  x <= fold_left Z.max l x ∧ ∀ y, y ∈ l → y <= fold_left Z.max l x.
Proof.
  revert x. induction l as [|a l IH]; intros x; cbn [fold_left].
  - split; [by left|]. split; [lia|]. intros y Hy. by inversion Hy.
  - destruct (IH (Z.max x a)) as (Hin & Hge & Hall). split; [|split].
    + destruct Hin as [Heq|Hin]; [|right; by right].
      rewrite Heq. destruct (Z.max_spec x a) as [[_ ->]|[_ ->]];
        [right; left | by left].
    + lia.
    + intros y Hy. inversion Hy; subst; [lia | by apply Hall].
Qed.

Lemma max_ok (l : list Z) (m : Z) :
  Py.max l = Ok m ↔ m ∈ l ∧ ∀ y, y ∈ l → y <= m.
Proof.
  destruct l as [|x l]; cbn [Py.max].
  - split; [congruence|]. intros [H _]. by inversion H.
  - destruct (fold_max_spec l x) as (Hin & Hge & Hall). split.
    + intros [= <-]. split.
      * destruct Hin as [->|Hin]; [left | by right].
      * intros y Hy. inversion Hy; subst; [done | by apply Hall].
    + intros [Hm Hub]. f_equal. apply Z.le_antisymm.
      * apply Hub. destruct Hin as [->|Hin]; [left | by right].
      * inversion Hm; subst; [done | by apply Hall].
Qed.

(** ** [get_next_interval_start] *)

Lemma elem_of_keys {V : Type} (d : gmap string V) (k : string) :
  k ∈ keys d ↔ k ∈ dom d.
Proof.
  unfold keys. rewrite elem_of_dom, list_elem_of_fmap. split.
  - intros ([k' v] & -> & Hin). apply elem_of_map_to_list in Hin. by exists v.
  - intros [v Hv]. exists (k, v). split; [done|]. by apply elem_of_map_to_list.
Qed.

Lemma Forall2_elem_l {A B : Type} (R : A → B → Prop) (l : list A) (k : list B) (x : A) :
  Forall2 R l k → x ∈ l → ∃ y, y ∈ k ∧ R x y.
Proof.
  induction 1 as [|a b l k Hab _ IH]; intros Hx; [by inversion Hx|].
  inversion Hx; subst.
  - exists b. split; [left | done].
  - destruct IH as (y & Hy & HR); [done|]. exists y. split; [by right | done].
Qed.

Lemma Forall2_elem_r {A B : Type} (R : A → B → Prop) (l : list A) (k : list B) (y : B) :
  Forall2 R l k → y ∈ k → ∃ x, x ∈ l ∧ R x y.
Proof.
  induction 1 as [|a b l k Hab _ IH]; intros Hy; [by inversion Hy|].
  inversion Hy; subst.
  - exists a. split; [left | done].
  - destruct IH as (x & Hx & HR); [done|]. exists x. split; [by right | done].
Qed.

(** The result is one more than the largest stop, and it is defined
    exactly when there is a key and every key has a stop. *)
Lemma next_start_ok {V : Type} (d : gmap string V) (n : Z) :
  get_next_interval_start d = Ok n ↔
  (∃ k, k ∈ dom d ∧ key_stop k = Ok (n - 1)) ∧
  (∀ k, k ∈ dom d → ∃ v, key_stop k = Ok v ∧ v < n).
Proof.
  unfold get_next_interval_start. split.
  - destruct (collect_stops (keys d)) as [stops|e] eqn:Hc; cbn; [|congruence].
    apply collect_stops_ok in Hc.
    destruct (Py.max stops) as [m|e] eqn:Hm; cbn; [|congruence].
    apply max_ok in Hm as [Hin Hub]. intros [= <-]. split.
    + destruct (Forall2_elem_r _ _ _ _ Hc Hin) as (k & Hk & Hv).
      exists k. split; [by apply elem_of_keys|]. rewrite Hv. f_equal. lia.
    + intros k Hk. apply elem_of_keys in Hk.
      destruct (Forall2_elem_l _ _ _ _ Hc Hk) as (v & Hv & Hkv).
      exists v. split; [done|]. specialize (Hub v Hv). lia.
  - intros [(k0 & Hk0 & Hstop0) Hall].
    destruct (collect_stops_total (keys d)) as [stops Hc].
    { intros k Hk. apply elem_of_keys in Hk.
      destruct (Hall k Hk) as (v & Hv & _). by exists v. }
    rewrite Hc. cbn. apply collect_stops_ok in Hc.
    apply elem_of_keys in Hk0.
    destruct (Forall2_elem_l _ _ _ _ Hc Hk0) as (v0 & Hv0 & Hkv0).
    assert (v0 = n - 1) as -> by congruence.
    assert (Hm : Py.max stops = Ok (n - 1)).
    { apply max_ok. split; [done|]. intros y Hy.
      destruct (Forall2_elem_r _ _ _ _ Hc Hy) as (k & Hk & Hky).
      apply elem_of_keys in Hk. destruct (Hall k Hk) as (v & Hv & Hlt).
      assert (v = y) by congruence. lia. }
    rewrite Hm. cbn. f_equal. lia.
Qed.

Lemma next_start_raises {V : Type} (d : gmap string V) (e : exn) :
  get_next_interval_start d = Raise e →
  e = ValueError ∧ (d = ∅ ∨ ∃ k, k ∈ dom d ∧ key_stop k = Raise ValueError).
Proof.
  unfold get_next_interval_start.
  destruct (collect_stops (keys d)) as [stops|e'] eqn:Hc; cbn.
  - destruct stops as [|x stops]; cbn; [|congruence]. intros [= <-].
    split; [done|]. left. apply collect_stops_ok in Hc. inversion Hc as [Hnil|].
    unfold keys in Hnil. symmetry in Hnil. apply fmap_nil_inv in Hnil.
    by apply map_to_list_empty_iff.
  - intros [= <-]. destruct (collect_stops_raises _ _ Hc) as [-> (k & Hk & Hr)].
    split; [done|]. right. exists k. split; [by apply elem_of_keys | done].
Qed.

Lemma next_start_empty {V : Type} :
  get_next_interval_start (∅ : gmap string V) = Raise ValueError.
Proof. unfold get_next_interval_start, keys. by rewrite map_to_list_empty. Qed.

(** The values of the mapping play no part. *)
Lemma next_start_dom {V W : Type} (d : gmap string V) (d' : gmap string W) :
  dom d = dom d' → get_next_interval_start d = get_next_interval_start d'.
Proof.
  intros Hdom.
  destruct (get_next_interval_start d) as [n|e] eqn:H1.
  - apply next_start_ok in H1. symmetry. apply next_start_ok.
    by rewrite <- Hdom.
  - destruct (get_next_interval_start d') as [n'|e'] eqn:H2.
    + apply next_start_ok in H2. rewrite <- Hdom in H2.
      apply next_start_ok in H2. congruence.
    + apply next_start_raises in H1 as [-> _].
      apply next_start_raises in H2 as [-> _]. done.
Qed.

Lemma reads_as_stop (k : string) (l s : Z) : reads_as k l s → key_stop k = Ok (l + s).
Proof. intros (a & b & Hsplit & Ha & Hb). unfold key_stop. by rewrite Hsplit, Ha, Hb. Qed.

Lemma stop_reads_as (k : string) (v : Z) :
  key_stop k = Ok v → ∃ l s, reads_as k l s ∧ v = l + s.
Proof.
  unfold key_stop. destruct (Py.split "@" k) as [|a [|b [|c t]]] eqn:Hsplit; try done.
  destruct (Py.int a) as [l|] eqn:Ha; [|done].
  destruct (Py.int b) as [s|] eqn:Hb; [|done]. cbn. intros [= <-].
  exists l, s. split; [|done]. by exists a, b.
Qed.

Lemma reads_as_composite (l s : Z) : reads_as (composite_key l s) l s.
Proof.
  exists (Py.str l), (Py.str s). by rewrite split_composite_key, !int_str.
Qed.

(* ===================================================================== *)
(** * Facts about one call of the paginator *)
(* ===================================================================== *)

Section Calls.

Context {world : Type}.
Variable frequency : string → world → outcome freq_response * world.
Abbreviation run := (get_freq_by_interval frequency).

Lemma run_no_depth seq_id start stop g :
  run 0 seq_id start stop g = (Raise RecursionError, g).
Proof. done. Qed.

Lemma run_request_raises depth seq_id start stop g e w :
  frequency (api_url seq_id start stop) (net g) = (Raise e, w) →
  run (S depth) seq_id start stop g
  = (Raise e, requested g (api_url seq_id start stop) (Raise e) w).
Proof.
  intros Hget. cbn [get_freq_by_interval]. unfold bindM, requests_get.
  by rewrite Hget.
Qed.

Lemma run_complete depth seq_id start stop g res w page :
  frequency (api_url seq_id start stop) (net g) = (Ok res, w) →
  freq_status res = 200 →
  freq_body_of res = Results page →
  run (S depth) seq_id start stop g
  = (Ok tt, merged_page (requested g (api_url seq_id start stop) (Ok res) w) page).
Proof.
  intros Hget Hst Hbody. cbn [get_freq_by_interval].
  unfold bindM, requests_get, lift, freq_results. rewrite Hget, Hst, Hbody. done.
Qed.

Lemma run_no_page depth seq_id start stop g res w e :
  frequency (api_url seq_id start stop) (net g) = (Ok res, w) →
  freq_status res = 200 ∨ freq_status res = 206 →
  freq_results res = Raise e →
  run (S depth) seq_id start stop g
  = (Raise e, requested g (api_url seq_id start stop) (Ok res) w).
Proof.
  intros Hget Hst Hbody. cbn [get_freq_by_interval].
  unfold bindM, requests_get, lift. rewrite Hget.
  destruct Hst as [-> | ->]; cbn; by rewrite Hbody.
Qed.

Lemma run_partial depth seq_id start stop g res w page next :
  frequency (api_url seq_id start stop) (net g) = (Ok res, w) →
  freq_status res = 206 →
  freq_body_of res = Results page →
  get_next_interval_start (page ∪ coll g) = Ok next →
  run (S depth) seq_id start stop g
  = run depth seq_id next stop
      (merged_page (requested g (api_url seq_id start stop) (Ok res) w) page).
Proof.
  intros Hget Hst Hbody Hnext. cbn [get_freq_by_interval].
  unfold bindM, requests_get, lift, freq_results, coll_update, read_coll.
  rewrite Hget, Hst, Hbody. cbn. rewrite Hnext. done.
Qed.

Lemma run_partial_stuck depth seq_id start stop g res w page e :
  frequency (api_url seq_id start stop) (net g) = (Ok res, w) →
  freq_status res = 206 →
  freq_body_of res = Results page →
  get_next_interval_start (page ∪ coll g) = Raise e →
  run (S depth) seq_id start stop g
  = (Raise e, merged_page (requested g (api_url seq_id start stop) (Ok res) w) page).
Proof.
  intros Hget Hst Hbody Hnext. cbn [get_freq_by_interval].
  unfold bindM, requests_get, lift, freq_results, coll_update, read_coll.
  rewrite Hget, Hst, Hbody. cbn. rewrite Hnext. done.
Qed.

Lemma run_error_status depth seq_id start stop g res w :
  frequency (api_url seq_id start stop) (net g) = (Ok res, w) →
  400 <= freq_status res →
  run (S depth) seq_id start stop g
  = (match freq_json res with Ok _ => Raise TypeError | Raise e => Raise e end,
     requested g (api_url seq_id start stop) (Ok res) w).
Proof.
  intros Hget Hst. cbn [get_freq_by_interval].
  unfold bindM, requests_get, lift. rewrite Hget.
  destruct (Z.eqb_spec (freq_status res) 200) as [?|_]; [lia|].
  destruct (Z.eqb_spec (freq_status res) 206) as [?|_]; [lia|].
  destruct (Z.leb_spec 400 (freq_status res)) as [_|?]; [|lia].
  by destruct (freq_json res).
Qed.

Lemma run_other_status depth seq_id start stop g res w :
  frequency (api_url seq_id start stop) (net g) = (Ok res, w) →
  freq_status res ≠ 200 → freq_status res ≠ 206 → freq_status res < 400 →
  run (S depth) seq_id start stop g
  = (Raise TypeError, requested g (api_url seq_id start stop) (Ok res) w).
Proof.
  intros Hget H200 H206 Hst. cbn [get_freq_by_interval].
  unfold bindM, requests_get, lift. rewrite Hget.
  destruct (Z.eqb_spec (freq_status res) 200) as [?|_]; [lia|].
  destruct (Z.eqb_spec (freq_status res) 206) as [?|_]; [lia|].
  destruct (Z.leb_spec 400 (freq_status res)) as [?|_]; [lia|]. done.
Qed.

Lemma run_cases depth seq_id start stop g :
  call_case frequency depth seq_id start stop g (run depth seq_id start stop g).
Proof.
  destruct depth as [|depth']; [by constructor|].
  destruct (frequency (api_url seq_id start stop) (net g)) as [[res|e] w] eqn:Hget.
  2: { rewrite (run_request_raises _ _ _ _ _ _ _ Hget). by econstructor. }
  destruct (Z.eq_dec (freq_status res) 200) as [H200|H200].
  { destruct (freq_body_of res) as [| |page] eqn:Hbody.
    - rewrite (run_no_page _ _ _ _ _ _ _ JSONDecodeError Hget);
        [|by left|by unfold freq_results; rewrite Hbody].
      eapply Call_no_page; eauto. by unfold freq_results; rewrite Hbody.
    - rewrite (run_no_page _ _ _ _ _ _ _ KeyError Hget);
        [|by left|by unfold freq_results; rewrite Hbody].
      eapply Call_no_page; eauto. by unfold freq_results; rewrite Hbody.
    - rewrite (run_complete _ _ _ _ _ _ _ _ Hget H200 Hbody).
      by econstructor. }
  destruct (Z.eq_dec (freq_status res) 206) as [H206|H206].
  { destruct (freq_body_of res) as [| |page] eqn:Hbody.
    - rewrite (run_no_page _ _ _ _ _ _ _ JSONDecodeError Hget);
        [|by right|by unfold freq_results; rewrite Hbody].
      eapply Call_no_page; eauto. by unfold freq_results; rewrite Hbody.
    - rewrite (run_no_page _ _ _ _ _ _ _ KeyError Hget);
        [|by right|by unfold freq_results; rewrite Hbody].
      eapply Call_no_page; eauto. by unfold freq_results; rewrite Hbody.
    - destruct (get_next_interval_start (page ∪ coll g)) as [next|e] eqn:Hnext.
      + rewrite (run_partial _ _ _ _ _ _ _ _ _ Hget H206 Hbody Hnext).
        by econstructor.
      + rewrite (run_partial_stuck _ _ _ _ _ _ _ _ _ Hget H206 Hbody Hnext).
        pose proof (next_start_raises _ _ Hnext) as [-> _].
        by econstructor. }
  destruct (Z.le_gt_cases 400 (freq_status res)) as [Hge|Hlt].
  - rewrite (run_error_status _ _ _ _ _ _ _ Hget Hge).
    by eapply Call_error_status.
  - rewrite (run_other_status _ _ _ _ _ _ _ Hget H200 H206 Hlt).
    by eapply Call_other_status.
Qed.

End Calls.

(** Case analysis on one call, with the names of the hypotheses fixed. *)
Ltac call_cases frequency depth seq_id start stop g :=
  let Hcase := fresh "Hcase" in
  let out := fresh "out" in
  pose proof (run_cases frequency depth seq_id start stop g) as Hcase;
  remember (get_freq_by_interval frequency depth seq_id start stop g)
    as out eqn:Hout;
  destruct Hcase as
    [ Hd | d e w Hd Hget | d res w page Hd Hget Hst Hbody
    | d res w e Hd Hget Hst Hres He
    | d res w page next Hd Hget Hst Hbody Hnext
    | d res w page Hd Hget Hst Hbody Hnext
    | d res w Hd Hget Hst
    | d res w Hd Hget H200 H206 Hst ].

Arguments page_of : simpl never.

Section Runs.

Context {world : Type}.
Variable frequency : string → world → outcome freq_response * world.
Abbreviation run := (get_freq_by_interval frequency).

Lemma run_requests depth seq_id start stop (g : @globals world) :
  ∃ starts : list Z,
    (log (run depth seq_id start stop g).2).*1
      = (log g).*1 ++ ((λ s, api_url seq_id s stop) <$> starts)
    ∧ (depth ≠ O → head starts = Some start).
Proof.
  revert start g. induction depth as [|depth IH]; intros start g.
  { exists []. cbn. by rewrite app_nil_r. }
  call_cases frequency (S depth) seq_id start stop g; try done;
    try (exists [start]; cbn; rewrite fmap_app; done).
  injection Hd as <-.
  destruct (IH next
    (merged_page (requested g (api_url seq_id start stop) (Ok res) w) page))
    as (starts & Hlog & _).
  exists (start :: starts). split; [|done].
  rewrite Hlog. cbn. rewrite fmap_app, <- app_assoc. done.
Qed.

Lemma page_of_page (res : freq_response) (page : gmap string json) :
  freq_status res = 200 ∨ freq_status res = 206 →
  freq_body_of res = Results page → page_of (Ok res) = page.
Proof.
  destruct res as [st body]. cbn. intros Hst ->. unfold page_of.
  by destruct Hst as [-> | ->].
Qed.

Lemma page_of_no_results (res : freq_response) (e : exn) :
  freq_results res = Raise e → page_of (Ok res) = ∅.
Proof. destruct res as [st [| |page]]; done. Qed.

Lemma page_of_bad_status (res : freq_response) :
  freq_status res ≠ 200 → freq_status res ≠ 206 → page_of (Ok res) = ∅.
Proof.
  destruct res as [st [| |page]]; cbn; try done. intros H200 H206.
  unfold page_of.
  destruct (Z.eqb_spec st 200); [done|]. by destruct (Z.eqb_spec st 206).
Qed.

(** Whatever the outcome, the accumulator afterwards is the accumulator
    before with every page received since merged into it. *)
Lemma run_accumulates depth seq_id start stop (g : @globals world) :
  ∃ new,
    log (run depth seq_id start stop g).2 = log g ++ new
    ∧ coll (run depth seq_id start stop g).2 = merged new.*2 (coll g).
Proof.
  revert start g. induction depth as [|depth IH]; intros start g.
  { exists []. cbn. by rewrite app_nil_r. }
  call_cases frequency (S depth) seq_id start stop g; try done.
  - exists [(api_url seq_id start stop, Raise e)]. cbn.
    change (page_of (Raise e)) with (∅ : gmap string json).
    by rewrite (left_id_L ∅ (∪)).
  - exists [(api_url seq_id start stop, Ok res)]. cbn.
    rewrite (page_of_page res page); auto.
  - exists [(api_url seq_id start stop, Ok res)]. cbn.
    by rewrite (page_of_no_results res e), (left_id_L ∅ (∪)).
  - injection Hd as <-.
    destruct (IH next
      (merged_page (requested g (api_url seq_id start stop) (Ok res) w) page))
      as (new & Hlog & Hcoll).
    exists ((api_url seq_id start stop, Ok res) :: new). split.
    + rewrite Hlog. cbn. by rewrite <- app_assoc.
    + rewrite Hcoll. cbn. rewrite (page_of_page res page); auto.
  - exists [(api_url seq_id start stop, Ok res)]. cbn.
    rewrite (page_of_page res page); auto.
  - exists [(api_url seq_id start stop, Ok res)]. cbn.
    rewrite (page_of_bad_status res), (left_id_L ∅ (∪)); [done|lia|lia].
  - exists [(api_url seq_id start stop, Ok res)]. cbn.
    by rewrite (page_of_bad_status res), (left_id_L ∅ (∪)).
Qed.

(** A call that returns has seen partial replies and then one complete
    reply. *)
Lemma run_returns depth seq_id start stop (g : @globals world) :
  (run depth seq_id start stop g).1 = Ok tt →
  ∃ new n,
    log (run depth seq_id start stop g).2 = log g ++ new
    ∧ status_of <$> new.*2 = replicate n (Some 206) ++ [Some 200].
Proof.
  revert start g. induction depth as [|depth IH]; intros start g; [done|].
  call_cases frequency (S depth) seq_id start stop g; try done.
  - intros _. exists [(api_url seq_id start stop, Ok res)], 0%nat.
    cbn. by rewrite Hst.
  - injection Hd as <-. intros Hok.
    destruct (IH next _ Hok) as (new & n & Hlog & Hstat).
    exists ((api_url seq_id start stop, Ok res) :: new), (S n). split.
    + rewrite Hlog. cbn. by rewrite <- app_assoc.
    + cbn. by rewrite Hst, Hstat.
  - cbn. by destruct (freq_json res).
Qed.

(** A call that raises has gone through partial pages only, up to the
    request at which it stops. *)
Lemma run_raises_after_pages depth seq_id start stop (g : @globals world)
    (err : exn) :
  (run depth seq_id start stop g).1 = Raise err →
  ∃ earlier rest,
    log (run depth seq_id start stop g).2 = log g ++ earlier ++ rest
    ∧ (length rest ≤ 1)%nat
    ∧ Forall partial_reply earlier.*2.
Proof.
  revert start g. induction depth as [|depth IH]; intros start g.
  { intros _. exists [], []. cbn. rewrite app_nil_r.
    split; [done|]. split; [lia | constructor]. }
  call_cases frequency (S depth) seq_id start stop g; try done;
    try (intros _; exists [], [(api_url seq_id start stop, Ok res)];
         cbn; split; [done|]; split; [lia | constructor]).
  - intros _. exists [], [(api_url seq_id start stop, Raise e)].
    cbn. split; [done|]. split; [lia | constructor].
  - injection Hd as <-. intros Herr.
    destruct (IH next _ Herr) as (earlier & rest & Hlog & Hlen & Hpages).
    exists ((api_url seq_id start stop, Ok res) :: earlier), rest.
    split; [|split; [done|]].
    + rewrite Hlog. cbn. by rewrite <- !app_assoc.
    + cbn. constructor; [|done]. by exists res, page.
Qed.

Lemma run_first_request depth seq_id start stop (g : @globals world) :
  ∃ rest,
    log (get_freq_by_interval frequency (S depth) seq_id start stop g).2
    = log g ++ (api_url seq_id start stop,
                (frequency (api_url seq_id start stop) (net g)).1) :: rest.
Proof.
  call_cases frequency (S depth) seq_id start stop g; try done;
    try (exists []; rewrite Hget; done).
  destruct (run_accumulates d seq_id next stop
    (merged_page (requested g (api_url seq_id start stop) (Ok res) w) page))
    as (new & Hlog & _).
  exists new. rewrite Hlog, Hget. cbn. by rewrite <- app_assoc.
Qed.

End Runs.

(** ** Reading a request back *)

Lemma strip_prefix_app (p s : string) : Service.strip_prefix p (p +:+ s) = Some s.
Proof.
  induction p as [|c p IH]; [by destruct s|].
  change (String c p +:+ s) with (String c (p +:+ s)).
  cbn [Service.strip_prefix]. by rewrite Ascii.eqb_refl.
Qed.

Lemma rsplit1_none (sep : ascii) (s : string) :
  string_forall (other_than sep) s = true → Service.rsplit1 sep s = None.
Proof.
  induction s as [|c s IH]; [done|]. cbn [string_forall Service.rsplit1].
  rewrite andb_true_iff. unfold other_than at 1. intros [Hc Hs].
  apply negb_true_iff in Hc. by rewrite IH, Hc.
Qed.

Lemma rsplit1_last (sep : ascii) (a b : string) :
  string_forall (other_than sep) b = true →
  Service.rsplit1 sep (a +:+ String sep b) = Some (a, b).
Proof.
  intros Hb. induction a as [|c a IH].
  - change (EmptyString +:+ String sep b) with (String sep b).
    cbn [Service.rsplit1]. by rewrite rsplit1_none, Ascii.eqb_refl.
  - change (String c a +:+ String sep b) with (String c (a +:+ String sep b)).
    cbn [Service.rsplit1]. by rewrite IH.
Qed.

Lemma numeral_not_colon (c : ascii) :
  numeral_char c = true → other_than ":" c = true.
Proof.
  destruct c as [[] [] [] [] [] [] [] []]; vm_compute; congruence.
Qed.

Lemma str_no_colon (z : Z) : string_forall (other_than ":") (Py.str z) = true.
Proof. eapply string_forall_impl; [apply numeral_not_colon | apply str_numeral]. Qed.

Lemma append_assoc (a b c : string) : (a +:+ b) +:+ c = a +:+ (b +:+ c).
Proof.
  induction a as [|x a IH]; [done|].
  change (String x a +:+ b) with (String x (a +:+ b)).
  change (String x (a +:+ b) +:+ c) with (String x ((a +:+ b) +:+ c)).
  by rewrite IH.
Qed.

Lemma decode_interval_url (seq_id : string) (position length : Z) :
  Service.decode (interval_url seq_id position length)
  = Some (seq_id, position, length).
Proof.
  unfold Service.decode, interval_url. rewrite strip_prefix_app. cbn [mbind option_bind].
  assert (Hshape :
    seq_id +:+ ":" +:+ Py.str position +:+ ":" +:+ Py.str length +:+ interval_suffix
    = ((seq_id +:+ String ":" (Py.str position)) +:+ String ":" (Py.str length))
      +:+ String "/" "overlapping_frequency_records").
  { rewrite !append_assoc. done. }
  rewrite Hshape, rsplit1_last by done. cbn [mbind option_bind].
  change (negb (String.eqb "overlapping_frequency_records"
                  "overlapping_frequency_records")) with false. cbn iota.
  rewrite rsplit1_last by apply str_no_colon. cbn [mbind option_bind].
  rewrite rsplit1_last by apply str_no_colon. cbn [mbind option_bind].
  by rewrite !int_str.
Qed.

Lemma api_url_interval (seq_id : string) (start stop : Z) :
  api_url seq_id start stop = interval_url seq_id start (stop - start + 1).
Proof. done. Qed.

(** ** [get_gene_loc] *)

Ltac step_bind :=
  match goal with
  | |- context [bind ?r _] =>
      let H := fresh "Hr" in destruct r eqn:H; cbn [bind]
  | |- context [if ?b then _ else _] =>
      let H := fresh "Hb" in destruct b eqn:H
  end.

Lemma gene_loc_ordered (gene_id : string) (res : response)
    (chraccver : json) (start stop : Z) :
  gene_loc_of_response gene_id res = Ok (chraccver, start, stop) → start <= stop.
Proof.
  unfold gene_loc_of_response, raise_str.
  repeat step_bind; try congruence; intros [= <- <- <-]; lia.
Qed.

Lemma py_in_obj (k : string) (m : gmap string json) (v : json) :
  m !! k = Some v → py_in k (JObj m) = Ok true.
Proof.
  intros Hk. cbn. f_equal. apply bool_decide_eq_true. by exists v.
Qed.

Lemma py_in_obj_absent (k : string) (m : gmap string json) :
  m !! k = None → py_in k (JObj m) = Ok false.
Proof.
  intros Hk. cbn. f_equal. apply bool_decide_eq_false. rewrite Hk.
  by intros [? ?].
Qed.

Lemma subscript_obj (k : string) (m : gmap string json) (v : json) :
  m !! k = Some v → subscript (JObj m) k = Ok v.
Proof. intros Hk. cbn. by rewrite Hk. Qed.

Lemma location_present (gene_id : string) (data result gene : gmap string json)
    (infos : json) :
  data !! "result"%string = Some (JObj result) →
  result !! gene_id = Some (JObj gene) →
  gene !! "genomicinfo"%string = Some infos →
  location_missing gene_id (JObj data) = Ok false.
Proof.
  intros Hd Hr Hg. unfold location_missing.
  rewrite (py_in_obj _ _ _ Hd). cbn [bind negb].
  rewrite (subscript_obj _ _ _ Hd). cbn [bind].
  rewrite (py_in_obj _ _ _ Hr). cbn [bind negb].
  rewrite (subscript_obj _ _ _ Hr). cbn [bind].
  rewrite (py_in_obj _ _ _ Hg). done.
Qed.

Lemma location_absent (gene_id : string) (data : gmap string json) :
  lacks_location gene_id data → location_missing gene_id (JObj data) = Ok true.
Proof.
  intros [Hd | result Hd Hr | result gene Hd Hr Hg]; unfold location_missing.
  - by rewrite (py_in_obj_absent _ _ Hd).
  - rewrite (py_in_obj _ _ _ Hd). cbn [bind negb].
    rewrite (subscript_obj _ _ _ Hd). cbn [bind].
    by rewrite (py_in_obj_absent _ _ Hr).
  - rewrite (py_in_obj _ _ _ Hd). cbn [bind negb].
    rewrite (subscript_obj _ _ _ Hd). cbn [bind].
    rewrite (py_in_obj _ _ _ Hr). cbn [bind negb].
    rewrite (subscript_obj _ _ _ Hr). cbn [bind].
    by rewrite (py_in_obj_absent _ _ Hg).
Qed.

Lemma gene_loc_located (gene_id : string) (res : response)
    (data result gene loc : gmap string json) (rest : list json)
    (chraccver vstart vstop : json) (x y : Z) :
  status_code res = 200 →
  json_of res = Ok (JObj data) →
  data !! "result"%string = Some (JObj result) →
  result !! gene_id = Some (JObj gene) →
  gene !! "genomicinfo"%string = Some (JArr (JObj loc :: rest)) →
  loc !! "chraccver"%string = Some chraccver →
  loc !! "chrstart"%string = Some vstart → int_of_json vstart = Ok x →
  loc !! "chrstop"%string = Some vstop → int_of_json vstop = Ok y →
  gene_loc_of_response gene_id res
  = Ok (chraccver, if x >? y then y else x, if x >? y then x else y).
Proof.
  intros Hst Hjson Hd Hr Hg Hacc Hs Hx He Hy.
  unfold gene_loc_of_response. rewrite Hst, Hjson. cbn [Z.eqb Pos.eqb negb bind].
  rewrite (location_present _ _ _ _ _ Hd Hr Hg). cbn [bind].
  rewrite (subscript_obj _ _ _ Hd). cbn [bind].
  rewrite (subscript_obj _ _ _ Hr). cbn [bind].
  rewrite (subscript_obj _ _ _ Hg). cbn [bind subscript0].
  rewrite (subscript_obj _ _ _ Hacc). cbn [bind].
  rewrite (subscript_obj _ _ _ Hs). cbn [bind]. rewrite Hx. cbn [bind].
  rewrite (subscript_obj _ _ _ He). cbn [bind]. rewrite Hy. cbn [bind].
  by destruct (x >? y).
Qed.

Lemma gene_loc_missing (gene_id : string) (res : response)
    (data : gmap string json) :
  status_code res = 200 →
  json_of res = Ok (JObj data) →
  lacks_location gene_id data →
  gene_loc_of_response gene_id res = Raise TypeError.
Proof.
  intros Hst Hjson Hlack. unfold gene_loc_of_response.
  rewrite Hst, Hjson. cbn [Z.eqb Pos.eqb negb bind].
  by rewrite (location_absent _ _ Hlack).
Qed.

Lemma gene_loc_no_record (gene_id : string) (res : response)
    (data result gene : gmap string json) :
  status_code res = 200 →
  json_of res = Ok (JObj data) →
  data !! "result"%string = Some (JObj result) →
  result !! gene_id = Some (JObj gene) →
  gene !! "genomicinfo"%string = Some (JArr []) →
  gene_loc_of_response gene_id res = Raise IndexError.
Proof.
  intros Hst Hjson Hd Hr Hg. unfold gene_loc_of_response.
  rewrite Hst, Hjson. cbn [Z.eqb Pos.eqb negb bind].
  rewrite (location_present _ _ _ _ _ Hd Hr Hg). cbn [bind].
  rewrite (subscript_obj _ _ _ Hd). cbn [bind].
  rewrite (subscript_obj _ _ _ Hr). cbn [bind].
  rewrite (subscript_obj _ _ _ Hg). done.
Qed.

Lemma get_gene_loc_response {world : Type}
    (esummary : string → world → outcome response * world)
    (gene_id : string) (g : @globals world) (res : response) (w : world) :
  esummary (esum_url gene_id) (net g) = (Ok res, w) →
  get_gene_loc esummary gene_id g
  = (gene_loc_of_response gene_id res, Globals w (coll g) (log g)).
Proof. intros Hget. unfold get_gene_loc. by rewrite Hget. Qed.

(** ** The stand-in service *)

Lemma insert_by_start_perm (v : Service.variant) (l : list Service.variant) :
  Service.insert_by_start v l ≡ₚ v :: l.
Proof.
  induction l as [|u l IH]; [done|]. cbn [Service.insert_by_start].
  destruct (v.2 <? u.2); [done|]. rewrite IH. apply Permutation_swap.
Qed.

Lemma sort_by_start_perm (l : list Service.variant) :
  Service.sort_by_start l ≡ₚ l.
Proof.
  induction l as [|v l IH]; [done|]. cbn. rewrite insert_by_start_perm.
  by rewrite IH.
Qed.

Lemma hits_NoDup (db : list Service.variant) (position length : Z) :
  NoDup db → NoDup (Service.hits db position length).
Proof.
  intros Hdb. apply NoDup_filter. by rewrite sort_by_start_perm.
Qed.

Lemma elem_of_hits (db : list Service.variant) (position length : Z)
    (v : Service.variant) :
  v ∈ Service.hits db position length
  ↔ v ∈ db ∧ Service.overlaps position length v = true.
Proof.
  unfold Service.hits. rewrite list_elem_of_filter, sort_by_start_perm. tauto.
Qed.

Global Instance key_of_inj : Inj (=) (=) Service.key_of.
Proof.
  intros [l s] [l' s'] Heq. unfold Service.key_of in Heq. cbn in Heq.
  by destruct (composite_key_inj _ _ _ _ Heq) as [-> ->].
Qed.

Lemma records_keys (vs : list Service.variant) :
  ((λ v, (Service.key_of v, JNull)) <$> vs).*1 = Service.key_of <$> vs.
Proof. rewrite <- list_fmap_compose. done. Qed.

Lemma records_size (vs : list Service.variant) :
  NoDup vs → size (Service.records vs) = List.length vs.
Proof.
  intros Hvs. unfold Service.records.
  rewrite map_size_list_to_map, length_fmap; [done|].
  rewrite records_keys. by apply (NoDup_fmap_2 _).
Qed.

Lemma records_dom (vs : list Service.variant) (k : string) :
  k ∈ dom (Service.records vs) ↔ ∃ v, v ∈ vs ∧ k = Service.key_of v.
Proof.
  unfold Service.records. rewrite dom_list_to_map_L, elem_of_list_to_set.
  rewrite records_keys, list_elem_of_fmap. split.
  - intros (v & Hk & Hv). by exists v.
  - intros (v & Hv & Hk). by exists v.
Qed.

Lemma service_reply (page_size : nat) (db : list Service.variant)
    (seq_id : string) (start stop : Z) (w : unit) :
  Service.frequency page_size db (api_url seq_id start stop) w
  = (Ok (Service.answer page_size db start (stop - start + 1)), w).
Proof.
  unfold Service.frequency.
  by rewrite api_url_interval, decode_interval_url.
Qed.

(** A reply of the service is a page of variants that overlap the
    interval. *)
Lemma answer_page (page_size : nat) (db : list Service.variant)
    (position length : Z) :
  ∃ vs, freq_body_of (Service.answer page_size db position length)
        = Results (Service.records vs)
        ∧ vs ⊆ Service.hits db position length
        ∧ (freq_status (Service.answer page_size db position length) = 200
           ∧ vs = Service.hits db position length
           ∧ (List.length (Service.hits db position length) ≤ page_size)%nat
           ∨ freq_status (Service.answer page_size db position length) = 206
           ∧ vs = take page_size (Service.hits db position length)
           ∧ (page_size < List.length (Service.hits db position length))%nat).
Proof.
  unfold Service.answer.
  destruct (Nat.leb_spec (List.length (Service.hits db position length)) page_size).
  - exists (Service.hits db position length). cbn. split; [done|].
    split; [done|]. left. done.
  - exists (take page_size (Service.hits db position length)). cbn.
    split; [done|]. split; [apply subseteq_take | right; done].
Qed.

Lemma merged_dom (replies : list (outcome freq_response))
    (c : gmap string json) (k : string) :
  k ∈ dom (merged replies c)
  ↔ k ∈ dom c ∨ ∃ r, r ∈ replies ∧ k ∈ dom (page_of r).
Proof.
  unfold merged. revert c. induction replies as [|r rs IH]; intros c; cbn [foldl].
  - split; [by left|]. intros [?|(r & Hr & _)]; [done|]. by inversion Hr.
  - rewrite IH, dom_union_L, elem_of_union. split.
    + intros [[Hk|Hk]|(r' & Hr' & Hk)].
      * right. exists r. split; [left | done].
      * by left.
      * right. exists r'. split; [by right | done].
    + intros [Hk|(r' & Hr' & Hk)].
      * left. by right.
      * inversion Hr'; subst.
        -- left. by left.
        -- right. by exists r'.
Qed.

(** ** The paginator against the stand-in service *)

Section Against_service.

Variable page_size : nat.
Variable db : list Service.variant.
Variable seq_id : string.
Variable start0 stop : Z.

Abbreviation true_hits := (Service.hits db start0 (stop - start0 + 1)).
Abbreviation kept := (from_hits db start0 stop).
Abbreviation serve := (get_freq_by_interval (Service.frequency page_size db)).

Lemma later_hits (s : Z) (v : Service.variant) :
  start0 <= s → v ∈ Service.hits db s (stop - s + 1) → v ∈ true_hits.
Proof.
  intros Hs. rewrite !elem_of_hits. intros [Hdb Hov]. split; [done|].
  unfold Service.overlaps in *. apply andb_true_iff in Hov as [H1 H2].
  apply andb_true_iff. split; lia.
Qed.

Lemma from_hits_page (s : Z) (c : gmap string json) (vs : list Service.variant) :
  start0 <= s → vs ⊆ Service.hits db s (stop - s + 1) →
  kept c → kept (Service.records vs ∪ c).
Proof.
  intros Hs Hvs Hc k. rewrite dom_union_L, elem_of_union.
  intros [Hk|Hk]; [|by apply Hc].
  apply records_dom in Hk as (v & Hv & ->). exists v. split; [|done].
  eapply later_hits; eauto.
Qed.

Lemma from_hits_next (c : gmap string json) (next : Z) :
  kept c → get_next_interval_start c = Ok next → start0 <= next.
Proof.
  intros Hc Hnext. apply next_start_ok in Hnext as [(k & Hk & Hstop) _].
  destruct (Hc k Hk) as (v & Hv & ->).
  unfold Service.key_of in Hstop. rewrite key_stop_composite in Hstop.
  apply elem_of_hits in Hv as [_ Hov]. unfold Service.overlaps in Hov.
  apply andb_true_iff in Hov as [_ H2]. injection Hstop as Hstop. lia.
Qed.

Lemma serve_from_hits depth (s : Z) (g : @globals unit) :
  start0 <= s → kept (coll g) →
  kept (coll (serve depth seq_id s stop g).2).
Proof.
  revert s g. induction depth as [|depth IH]; intros s g Hs Hg; [done|].
  call_cases (Service.frequency page_size db) (S depth) seq_id s stop g;
    try done.
  all: rewrite service_reply in Hget; injection Hget as <- <-.
  all: destruct (answer_page page_size db s (stop - s + 1))
         as (vs & Hpage & Hsub & _).
  all: rewrite Hpage in Hbody; injection Hbody as <-.
  - by apply (from_hits_page s).
  - injection Hd as <-. apply IH.
    + eapply from_hits_next; [|exact Hnext]. by apply (from_hits_page s).
    + by apply (from_hits_page s).
  - by apply (from_hits_page s).
Qed.

Lemma from_hits_size (c : gmap string json) :
  kept c → (size c ≤ List.length true_hits)%nat.
Proof.
  intros Hc. rewrite <- size_dom.
  transitivity (size (list_to_set (C := gset string) (Service.key_of <$> true_hits))).
  - apply subseteq_size. intros k Hk. apply elem_of_list_to_set.
    apply list_elem_of_fmap. destruct (Hc k Hk) as (v & Hv & ->). by exists v.
  - rewrite <- (length_fmap Service.key_of true_hits).
    generalize (Service.key_of <$> true_hits). intros l.
    induction l as [|x l IHl]; [done|]. cbn [list_to_set length].
    destruct (decide (x ∈ (list_to_set l : gset string))) as [Hin|Hnin].
    + assert ({[x]} ∪ list_to_set l = (list_to_set l : gset string)) as ->.
      { apply subseteq_union_1_L. by apply singleton_subseteq_l. }
      lia.
    + rewrite size_union by (by apply disjoint_singleton_l).
      rewrite size_singleton. lia.
Qed.

End Against_service.

(** ** The paginator returns *)

Lemma filter_none {A : Type} (P : A → Prop) `{∀ x, Decision (P x)} (l : list A) :
  (∀ x, x ∈ l → ¬ P x) → filter P l = [].
Proof.
  induction l as [|x l IH]; intros Hl; [done|].
  rewrite filter_cons_False by (apply Hl; left).
  apply IH. intros y Hy. apply Hl. by right.
Qed.

Section Service_returns.

Variable page_size : nat.
Variable db : list Service.variant.
Variable seq_id : string.
Variable stop : Z.

Abbreviation serve := (get_freq_by_interval (Service.frequency page_size db)).
Abbreviation found s := (Service.hits db s (stop - s + 1)).

(** The variants of a page are out of reach of an interval that starts
    after their stops. *)
Lemma hits_after_page (s next : Z) :
  s <= next →
  (∀ v, v ∈ take page_size (found s) → v.1 + v.2 < next) →
  (List.length (found next) + List.length (take page_size (found s))
   ≤ List.length (found s))%nat.
Proof.
  intros Hs Hpage. unfold Service.hits.
  set (sorted := Service.sort_by_start db).
  set (P := λ v, Service.overlaps next (stop - next + 1) v = true).
  set (Q := λ v, Service.overlaps s (stop - s + 1) v = true).
  assert (HPQ : ∀ v, P v → Q v).
  { unfold P, Q, Service.overlaps. intros v Hv.
    apply andb_true_iff in Hv as [H1 H2]. apply andb_true_iff. split; lia. }
  rewrite <- (list_filter_filter_l P Q sorted HPQ).
  rewrite <- (take_drop page_size (filter Q sorted)) at 1.
  rewrite filter_app, (filter_none P (take page_size (filter Q sorted))).
  - cbn [app]. pose proof (length_filter P (drop page_size (filter Q sorted))) as Hle.
    rewrite length_drop in Hle. rewrite length_take. lia.
  - intros v Hv HP. specialize (Hpage v Hv). unfold P, Service.overlaps in HP.
    apply andb_true_iff in HP as [_ H2]. lia.
Qed.

Lemma next_after_page (s : Z) (c : gmap string json) (vs : list Service.variant) :
  stops_below s c → vs ⊆ found s → vs ≠ [] →
  ∃ next, get_next_interval_start (Service.records vs ∪ c) = Ok next
          ∧ s < next
          ∧ stops_below next (Service.records vs ∪ c)
          ∧ ∀ v, v ∈ vs → v.1 + v.2 < next.
Proof.
  intros Hc Hvs Hne.
  assert (Hkeys : ∀ k, k ∈ dom (Service.records vs ∪ c) →
                       ∃ l st, k = composite_key l st).
  { intros k. rewrite dom_union_L, elem_of_union. intros [Hk|Hk].
    - apply records_dom in Hk as (v & _ & ->). by exists v.1, v.2.
    - destruct (Hc k Hk) as (l & st & -> & _). by exists l, st. }
  destruct vs as [|v0 vs']; [done|].
  assert (Hv0 : Service.key_of v0 ∈ dom (Service.records (v0 :: vs') ∪ c)).
  { rewrite dom_union_L, elem_of_union. left. apply records_dom.
    exists v0. split; [left | done]. }
  destruct (get_next_interval_start (Service.records (v0 :: vs') ∪ c))
    as [next|e] eqn:Hnext.
  - exists next. split; [done|]. apply next_start_ok in Hnext as [_ Hall].
    assert (Hbelow : ∀ v, v ∈ v0 :: vs' → v.1 + v.2 < next).
    { intros v Hv. destruct (Hall (Service.key_of v)) as (x & Hx & Hlt).
      - rewrite dom_union_L, elem_of_union. left. apply records_dom. by exists v.
      - unfold Service.key_of in Hx. rewrite key_stop_composite in Hx.
        injection Hx as <-. done. }
    split; [|split; [|done]].
    + assert (Hov : v0 ∈ found s) by (apply Hvs; left).
      apply elem_of_hits in Hov as [_ Hov]. unfold Service.overlaps in Hov.
      apply andb_true_iff in Hov as [_ H2]. specialize (Hbelow v0 ltac:(left)). lia.
    + intros k Hk. destruct (Hkeys k Hk) as (l & st & ->).
      exists l, st. split; [done|]. destruct (Hall _ Hk) as (x & Hx & Hlt).
      rewrite key_stop_composite in Hx. injection Hx as <-. done.
  - apply next_start_raises in Hnext as [_ [Hempty|(k & Hk & Hraise)]].
    + rewrite Hempty in Hv0. by rewrite dom_empty_L in Hv0.
    + destruct (Hkeys k Hk) as (l & st & ->).
      by rewrite key_stop_composite in Hraise.
Qed.

(** With pages of at least one record and more nested calls allowed than
    there are variants overlapping the interval, the paginator returns. *)
Lemma serve_returns depth (s : Z) (g : @globals unit) :
  (0 < page_size)%nat →
  stops_below s (coll g) →
  (List.length (found s) < depth)%nat →
  (serve depth seq_id s stop g).1 = Ok tt.
Proof.
  intros Hps. revert s g. induction depth as [|depth IH]; intros s g Hg Hlen; [lia|].
  destruct (answer_page page_size db s (stop - s + 1))
    as (vs & Hbody & Hsub & [(Hst & _ & _)|(Hst & -> & Hmore)]).
  - by rewrite (run_complete _ _ _ _ _ _ _ _ _
                  (service_reply page_size db seq_id s stop _) Hst Hbody).
  - destruct (next_after_page s (coll g) (take page_size (found s)) Hg Hsub)
      as (next & Hnext & Hlt & Hbelow & Hpage).
    { intros Hnil. apply (f_equal List.length) in Hnil.
      rewrite length_take in Hnil. cbn in Hnil. lia. }
    rewrite (run_partial _ _ _ _ _ _ _ _ _ _
               (service_reply page_size db seq_id s stop _) Hst Hbody Hnext).
    apply IH; [exact Hbelow|].
    pose proof (hits_after_page s next ltac:(lia) Hpage) as Hdrop.
    rewrite length_take in Hdrop. lia.
Qed.

End Service_returns.

(** ** Pages on data whose stops follow the starts *)

Lemma ceil_div_small (a b : nat) : (0 < a)%nat → (a ≤ b)%nat → ceil_div a b = 1%nat.
Proof.
  intros Ha Hb. unfold ceil_div.
  replace (a + b - 1)%nat with ((a - 1) + 1 * b)%nat by lia.
  rewrite Nat.div_add by lia. rewrite Nat.div_small by lia. done.
Qed.

Lemma ceil_div_step (a b : nat) :
  (0 < b)%nat → (b < a)%nat → ceil_div a b = S (ceil_div (a - b) b).
Proof.
  intros Hb Ha. unfold ceil_div.
  replace (a + b - 1)%nat with ((a - b + b - 1) + 1 * b)%nat by lia.
  rewrite Nat.div_add by lia. lia.
Qed.

Lemma insert_by_start_sorted (v : Service.variant) (l : list Service.variant) :
  StronglySorted (λ a b, a.2 <= b.2) l →
  StronglySorted (λ a b, a.2 <= b.2) (Service.insert_by_start v l).
Proof.
  induction 1 as [|u l Hl IH Hu]; cbn [Service.insert_by_start].
  - repeat constructor.
  - destruct (Z.ltb_spec v.2 u.2).
    + constructor; [by constructor|]. constructor; [lia|].
      eapply Forall_impl; [exact Hu|]. cbn. lia.
    + constructor; [done|]. rewrite insert_by_start_perm.
      constructor; [lia | done].
Qed.

Lemma sort_by_start_sorted (l : list Service.variant) :
  StronglySorted (λ a b, a.2 <= b.2) (Service.sort_by_start l).
Proof.
  induction l as [|v l IH]; cbn; [constructor|]. by apply insert_by_start_sorted.
Qed.

Lemma sorted_by_stop (vs : list Service.variant) :
  StronglySorted (λ a b, a.2 <= b.2) vs →
  NoDup vs → stops_follow_starts vs →
  StronglySorted (λ a b, a.1 + a.2 < b.1 + b.2) vs.
Proof.
  intros Hs. induction Hs as [|u l Hl IH Hu]; intros Hnd Hord; [constructor|].
  apply NoDup_cons in Hnd as [Hu' Hnd].
  constructor.
  - apply IH; [done|]. intros a b Ha Hb. apply Hord; by right.
  - apply Forall_forall. intros v Hv. rewrite Forall_forall in Hu.
    apply Hord; [left | by right | | by apply Hu].
    intros ->. done.
Qed.

Lemma filter_all {A : Type} (P : A → Prop) `{∀ x, Decision (P x)} (l : list A) :
  (∀ x, x ∈ l → P x) → filter P l = l.
Proof.
  induction l as [|x l IH]; intros Hl; [done|].
  rewrite filter_cons_True by (apply Hl; left).
  f_equal. apply IH. intros y Hy. apply Hl. by right.
Qed.

Lemma StronglySorted_filter {A : Type} (R : relation A) (P : A → Prop)
    `{∀ x, Decision (P x)} (l : list A) :
  StronglySorted R l → StronglySorted R (filter P l).
Proof.
  induction 1 as [|x l Hl IH Hx]; [constructor|].
  destruct (decide (P x)).
  - rewrite filter_cons_True by done. constructor; [done|].
    apply Forall_forall. intros y Hy. apply list_elem_of_filter in Hy as [_ Hy].
    rewrite Forall_forall in Hx. by apply Hx.
  - by rewrite filter_cons_False.
Qed.

Section Exact_pages.

Variable page_size : nat.
Variable db : list Service.variant.
Variable seq_id : string.
Variable start0 stop : Z.

Abbreviation serve := (get_freq_by_interval (Service.frequency page_size db)).
Abbreviation found s := (Service.hits db s (stop - s + 1)).

Hypothesis pages_hold : (0 < page_size)%nat.
Hypothesis db_NoDup : NoDup db.
Hypothesis hits_ordered : stops_follow_starts (found start0).

Lemma hits_by_stop (s : Z) :
  start0 <= s → StronglySorted (λ a b, a.1 + a.2 < b.1 + b.2) (found s).
Proof.
  intros Hs. apply sorted_by_stop.
  - apply StronglySorted_filter, sort_by_start_sorted.
  - by apply hits_NoDup.
  - intros u v Hu Hv. apply hits_ordered; by apply (later_hits db start0 stop s).
Qed.

(** The interval that starts right after the stops of a page finds the
    variants the page left out, and only them. *)
Lemma hits_rest (s next : Z) :
  s <= next →
  (∀ v, v ∈ take page_size (found s) → v.1 + v.2 < next) →
  (∀ v, v ∈ drop page_size (found s) → next <= v.1 + v.2) →
  found next = drop page_size (found s).
Proof.
  intros Hs Hpage Hrest. unfold Service.hits.
  set (sorted := Service.sort_by_start db).
  set (P := λ v, Service.overlaps next (stop - next + 1) v = true).
  set (Q := λ v, Service.overlaps s (stop - s + 1) v = true).
  assert (HPQ : ∀ v, P v → Q v).
  { unfold P, Q, Service.overlaps. intros v Hv.
    apply andb_true_iff in Hv as [H1 H2]. apply andb_true_iff. split; lia. }
  rewrite <- (list_filter_filter_l P Q sorted HPQ).
  rewrite <- (take_drop page_size (filter Q sorted)) at 1.
  rewrite filter_app, (filter_none P (take page_size (filter Q sorted))).
  - cbn [app]. apply filter_all. intros v Hv.
    assert (HQ : Q v).
    { pose proof (subseteq_drop page_size _ _ Hv) as Hv'.
      apply list_elem_of_filter in Hv'. tauto. }
    specialize (Hrest v Hv). unfold P, Q, Service.overlaps in *.
    apply andb_true_iff in HQ as [H1 H2]. apply andb_true_iff. split; lia.
  - intros v Hv HP. specialize (Hpage v Hv). unfold P, Service.overlaps in HP.
    apply andb_true_iff in HP as [_ H2]. lia.
Qed.

(** After a partial page the next call finds exactly the rest. *)
Lemma next_finds_rest (s next : Z) (c : gmap string json) :
  start0 <= s →
  stops_below s c → (page_size < List.length (found s))%nat →
  get_next_interval_start (Service.records (take page_size (found s)) ∪ c) = Ok next →
  s < next →
  (∀ v, v ∈ take page_size (found s) → v.1 + v.2 < next) →
  found next = drop page_size (found s).
Proof.
  intros Hs0 Hc Hmore Hnext Hlt Hpage. apply hits_rest; [lia|done|].
  intros v Hv. apply next_start_ok in Hnext as [(k & Hk & Hstop) _].
  assert (Hvs : v ∈ found s) by (eapply subseteq_drop; exact Hv).
  rewrite dom_union_L, elem_of_union in Hk. destruct Hk as [Hk|Hk].
  - apply records_dom in Hk as (u & Hu & ->).
    unfold Service.key_of in Hstop. rewrite key_stop_composite in Hstop.
    injection Hstop as Hstop.
    pose proof (hits_by_stop s Hs0) as Hsorted.
    rewrite <- (take_drop page_size (found s)) in Hsorted.
    pose proof (StronglySorted_app_1_elem_of _ _ _ _ _ Hsorted Hu Hv) as Hlt'.
    cbn beta in Hlt'. lia.
  - destruct (Hc k Hk) as (l & st & -> & Hbelow).
    rewrite key_stop_composite in Hstop. injection Hstop as Hstop.
    apply elem_of_hits in Hvs as [_ Hov]. unfold Service.overlaps in Hov.
    apply andb_true_iff in Hov as [_ H2]. lia.
Qed.

Lemma records_dom_set (vs : list Service.variant) :
  dom (Service.records vs) = list_to_set (Service.key_of <$> vs).
Proof.
  unfold Service.records. by rewrite dom_list_to_map_L, records_keys.
Qed.

(** On such data every page brings [page_size] new records: the call
    returns after as many requests as pages are needed, with every
    variant found. *)
Lemma serve_exact depth (s : Z) (g : @globals unit) :
  start0 <= s →
  stops_below s (coll g) →
  (List.length (found s) < depth)%nat →
  (serve depth seq_id s stop g).1 = Ok tt
  ∧ ∃ new,
      log (serve depth seq_id s stop g).2 = log g ++ new
      ∧ List.length new = Nat.max 1 (ceil_div (List.length (found s)) page_size)
      ∧ dom (coll (serve depth seq_id s stop g).2)
        = list_to_set (Service.key_of <$> found s) ∪ dom (coll g).
Proof.
  revert s g. induction depth as [|depth IH]; intros s g Hs0 Hg Hlen; [lia|].
  destruct (answer_page page_size db s (stop - s + 1))
    as (vs & Hbody & Hsub & [(Hst & -> & Hle)|(Hst & -> & Hmore)]).
  - rewrite (run_complete _ _ _ _ _ _ _ _ _
               (service_reply page_size db seq_id s stop _) Hst Hbody).
    split; [done|]. eexists [_]. cbn. split; [done|]. split.
    + destruct (List.length (found s)) as [|n] eqn:Hn.
      * unfold ceil_div. rewrite Nat.div_small by lia. done.
      * rewrite ceil_div_small by lia. done.
    + by rewrite dom_union_L, records_dom_set.
  - destruct (next_after_page db stop s (coll g)
                (take page_size (found s)) Hg Hsub)
      as (next & Hnext & Hlt & Hbelow & Hpage).
    { intros Hnil. apply (f_equal List.length) in Hnil.
      rewrite length_take in Hnil. cbn in Hnil. lia. }
    pose proof (next_finds_rest s next (coll g) Hs0 Hg Hmore Hnext Hlt Hpage) as Hrest.
    rewrite (run_partial _ _ _ _ _ _ _ _ _ _
               (service_reply page_size db seq_id s stop _) Hst Hbody Hnext).
    set (g2 := merged_page _ _).
    destruct (IH next g2) as (Hok & new & Hlog & Hcount & Hdom).
    { lia. }
    { exact Hbelow. }
    { rewrite Hrest, length_drop. lia. }
    split; [done|]. eexists (_ :: new). split; [|split].
    + rewrite Hlog. unfold g2. cbn. by rewrite <- app_assoc.
    + cbn [List.length]. rewrite Hcount, Hrest, length_drop.
      rewrite (ceil_div_step (List.length (found s)) page_size) by lia.
      assert (1 ≤ ceil_div (List.length (found s) - page_size) page_size)%nat.
      { unfold ceil_div. apply Nat.div_le_lower_bound; lia. }
      lia.
    + rewrite Hdom, Hrest. unfold g2. cbn. rewrite dom_union_L, records_dom_set.
      rewrite <- (take_drop page_size (found s)) at 3.
      rewrite fmap_app, list_to_set_app_L.
      rewrite (assoc_L (∪)). f_equal. apply (comm_L (∪)).
Qed.

End Exact_pages.

(* ===================================================================== *)
(** * Facts about the clock *)
(* ===================================================================== *)

Section Clock_facts.

Context {world : Type}.
Variable second : Z.
Variable clock : world → Z.
Variable sleep : Z → world → world.
Variable frequency : string → world → outcome freq_response * world.

Hypothesis second_positive : 0 < second.
Hypothesis sleep_lasts : ∀ secs w, clock w + secs <= clock (sleep secs w).
Hypothesis clock_monotone : ∀ url w, clock w <= clock (frequency url w).2.
Hypothesis no_limit_upstream :
  ∀ url w, (frequency url w).1 ≠ Raise RateLimitException.

Abbreviation lrun := (limited_get_freq_by_interval second clock sleep frequency).
Abbreviation run := (get_freq_by_interval (with_sleep second sleep frequency)).

(** Once the period is over, the wrapper begins a new one and lets the
    call through. *)
Lemma limits_elapsed (t : Z) (l : limiter) :
  last_reset l + second <= t → limits 1 second t l = (Ok tt, Limiter t 1).
Proof.
  intros Hl. unfold limits.
  destruct (Z.leb_spec (second - (t - last_reset l)) 0); [done|lia].
Qed.

(** In a period that is still running and counts a call already, it
    refuses. *)
Lemma limits_refuses (t : Z) (l : limiter) :
  (0 < num_calls l)%nat → t < last_reset l + second →
  limits 1 second t l
  = (Raise RateLimitException, Limiter (last_reset l) (S (num_calls l))).
Proof.
  intros Hn Hl. unfold limits.
  destruct (Z.leb_spec (second - (t - last_reset l)) 0); [lia|].
  destruct l as [r [|n]]; cbn in *; [lia|done].
Qed.

(** A period never begins after the reading at which the wrapper runs. *)
Lemma limits_window (t : Z) (l : limiter) :
  last_reset l <= t → last_reset (limits 1 second t l).2 <= t.
Proof.
  intros Hl. unfold limits.
  destruct (Z.leb_spec (second - (t - last_reset l)) 0); cbn; lia.
Qed.

(** All that the wrapper raises is [RateLimitException]. *)
Lemma limits_raises (t : Z) (l : limiter) (e : exn) :
  (limits 1 second t l).1 = Raise e → e = RateLimitException.
Proof.
  unfold limits. cbn [fst].
  match goal with |- context [if ?b then _ else _] => destruct b end;
    by intros [= <-].
Qed.

(** The requests of a call, those of its nested calls included: each is
    sent a second or more after the one before; if the wrapper lets the
    call through, the first is sent at once and no nested call is
    refused; if not, the call is over before anything else happens. *)
Lemma lrun_spaced depth seq_id start stop (p : @process world) :
  last_reset (freq_limiter p) <= now clock p →
  ∃ new,
    sent (lrun depth seq_id start stop p).2 = sent p ++ new
    ∧ spaced second new.*1
    ∧ Forall (Z.le (now clock p)) new.*1
    ∧ ((limits 1 second (now clock p) (freq_limiter p)).1 = Ok tt →
       (lrun depth seq_id start stop p).1 ≠ Raise RateLimitException
       ∧ (depth ≠ O →
          ∃ rest, new = (now clock p, api_url seq_id start stop) :: rest))
    ∧ ((limits 1 second (now clock p) (freq_limiter p)).1 ≠ Ok tt →
       depth ≠ O →
       lrun depth seq_id start stop p
       = (Raise RateLimitException,
          Process (globals_of p) (gene_limiter p)
            (limits 1 second (now clock p) (freq_limiter p)).2 (sent p))).
Proof.
  revert start p. induction depth as [|depth IH]; intros start p Hwin.
  { exists []. cbn. rewrite app_nil_r.
    split; [done|]. split; [constructor|]. split; [constructor|]. done. }
  pose proof (limits_window (now clock p) (freq_limiter p) Hwin) as Hwin'.
  destruct (lrun (S depth) seq_id start stop p) as [r q] eqn:Hrun. cbn [fst snd].
  cbn [limited_get_freq_by_interval] in Hrun.
  unfold bindM at 1 in Hrun. unfold check_freq_limiter in Hrun.
  destruct (limits 1 second (now clock p) (freq_limiter p)) as [[[]|e] l] eqn:Hlim.
  2: { injection Hrun as <- <-. exists []. cbn. rewrite app_nil_r.
       split; [done|]. split; [constructor|]. split; [constructor|].
       split; [done|]. intros _ _. f_equal. f_equal.
       apply (limits_raises (now clock p) (freq_limiter p)). by rewrite Hlim. }
  cbn [fst snd] in *.
  unfold bindM at 1 in Hrun. unfold timed_get, requests_get in Hrun.
  cbn [globals_of gene_limiter freq_limiter sent] in Hrun.
  pose proof (clock_monotone (api_url seq_id start stop) (net (globals_of p))) as Hmono.
  pose proof (no_limit_upstream (api_url seq_id start stop) (net (globals_of p))) as Hup.
  assert (Hone : ∀ (r' : outcome unit) (q' : @process world),
            r' ≠ Raise RateLimitException →
            sent q' = sent p ++ [(now clock p, api_url seq_id start stop)] →
            (r', q') = (r, q) →
            ∃ new, sent q = sent p ++ new
              ∧ spaced second new.*1 ∧ Forall (Z.le (now clock p)) new.*1
              ∧ (Ok tt = Ok tt →
                 r ≠ Raise RateLimitException
                 ∧ (S depth ≠ O →
                    ∃ rest, new = (now clock p, api_url seq_id start stop) :: rest))
              ∧ (Ok tt ≠ Ok tt → S depth ≠ O →
                 (r, q) = (Raise RateLimitException,
                           Process (globals_of p) (gene_limiter p) l (sent p)))).
  { intros r' q' Hr Hq [= <- <-]. eexists [_]. split; [exact Hq|]. cbn.
    split; [repeat constructor|]. split; [constructor; [lia|constructor]|].
    split; [|done]. intros _. split; [done|]. intros _. by eexists. }
  destruct (frequency (api_url seq_id start stop) (net (globals_of p)))
    as [[res|e] w] eqn:Hget; cbn [fst snd] in *.
  2: { eapply Hone; [| |exact Hrun]; [congruence | done]. }
  destruct (Z.eqb_spec (freq_status res) 200) as [H200|H200].
  { unfold bindM, lift, on_globals, coll_update in Hrun.
    destruct (freq_results res) as [page|e] eqn:Hres; cbn in Hrun;
      (eapply Hone; [| |exact Hrun]; [|done]); [done|].
    unfold freq_results in Hres. destruct (freq_body_of res); congruence. }
  destruct (Z.eqb_spec (freq_status res) 206) as [H206|H206].
  2: { destruct (Z.leb_spec 400 (freq_status res)).
       - unfold bindM, lift, freq_json in Hrun.
         destruct (freq_body_of res); cbn in Hrun;
           (eapply Hone; [| |exact Hrun]; done).
       - unfold lift in Hrun. eapply Hone; [| |exact Hrun]; done. }
  unfold bindM at 1 in Hrun. unfold lift at 1 in Hrun.
  destruct (freq_results res) as [page|e] eqn:Hres.
  2: { eapply Hone; [| |exact Hrun]; [|done].
       unfold freq_results in Hres. destruct (freq_body_of res); congruence. }
  unfold bindM at 1 in Hrun. unfold on_globals at 1 in Hrun.
  unfold coll_update in Hrun.
  cbn [globals_of gene_limiter freq_limiter sent net coll log] in Hrun.
  unfold bindM at 1 in Hrun. unfold time_sleep at 1 in Hrun.
  cbn [globals_of gene_limiter freq_limiter sent net coll log] in Hrun.
  unfold bindM at 1 in Hrun. unfold on_globals at 1 in Hrun.
  unfold read_coll in Hrun.
  cbn [globals_of gene_limiter freq_limiter sent net coll log] in Hrun.
  unfold bindM at 1 in Hrun. unfold lift at 1 in Hrun.
  destruct (get_next_interval_start (page ∪ coll (globals_of p))) as [next|e] eqn:Hnext.
  2: { apply next_start_raises in Hnext as [-> _].
       eapply Hone; [| |exact Hrun]; done. }
  match type of Hrun with
  | limited_get_freq_by_interval _ _ _ _ _ _ _ _ ?x = _ => set (p3 := x) in *
  end.
  pose proof (sleep_lasts second w) as Hsleep.
  assert (Hnow3 : now clock p + second <= now clock p3).
  { unfold now, p3. cbn. unfold now in Hmono. lia. }
  destruct (IH next p3) as (new & Hsent & Hsp & Hge & Hpass & _).
  { change (freq_limiter p3) with l. lia. }
  assert (Hok : (lrun depth seq_id next stop p3).1 ≠ Raise RateLimitException).
  { apply Hpass. change (freq_limiter p3) with l.
    rewrite limits_elapsed; [done|lia]. }
  rewrite Hrun in Hsent, Hok. cbn [fst snd] in Hsent, Hok.
  exists ((now clock p, api_url seq_id start stop) :: new). split; [|split; [|split]].
  - rewrite Hsent. unfold p3. cbn [sent]. by rewrite <- app_assoc.
  - cbn. constructor; [exact Hsp|].
    destruct new as [|[t u] new]; constructor. cbn in Hge.
    apply Forall_cons in Hge as [Hge _]. unfold now in *. cbn [fst]. lia.
  - cbn. constructor; [lia|]. eapply Forall_impl; [exact Hge|]. cbn.
    unfold now in *. lia.
  - split; [|done]. intros _. split; [done|]. intros _. by eexists.
Qed.

(** Once the limiter has let the call through, the clock changes nothing
    in what the paginator does: outcome, [coll] and the requests are those
    of [get_freq_by_interval]. *)
Lemma limited_run_is_run depth seq_id start stop (p : @process world) :
  last_reset (freq_limiter p) <= now clock p →
  (limits 1 second (now clock p) (freq_limiter p)).1 = Ok tt →
  (lrun depth seq_id start stop p).1 = (run depth seq_id start stop (globals_of p)).1
  ∧ globals_of (lrun depth seq_id start stop p).2
    = (run depth seq_id start stop (globals_of p)).2.
Proof.
  revert start p. induction depth as [|depth IH]; intros start p Hwin Hpass; [done|].
  pose proof (limits_window (now clock p) (freq_limiter p) Hwin) as Hwin'.
  destruct (lrun (S depth) seq_id start stop p) as [r q] eqn:Hrun.
  destruct (run (S depth) seq_id start stop (globals_of p)) as [r' g'] eqn:Hrun'.
  cbn [fst snd].
  cbn [limited_get_freq_by_interval] in Hrun.
  unfold bindM at 1 in Hrun. unfold check_freq_limiter in Hrun.
  destruct (limits 1 second (now clock p) (freq_limiter p)) as [[[]|e] l] eqn:Hlim;
    [|done].
  cbn [fst snd] in *.
  unfold bindM at 1 in Hrun. unfold timed_get, requests_get in Hrun.
  cbn [globals_of gene_limiter freq_limiter sent] in Hrun.
  set (served := with_sleep second sleep frequency) in *.
  cbn [get_freq_by_interval] in Hrun'.
  unfold bindM at 1 in Hrun'. unfold requests_get in Hrun'.
  unfold served at 1 in Hrun'. unfold with_sleep in Hrun'.
  pose proof (clock_monotone (api_url seq_id start stop) (net (globals_of p))) as Hmono.
  destruct (frequency (api_url seq_id start stop) (net (globals_of p)))
    as [[res|e] w] eqn:Hget; cbn [fst snd] in *.
  2: { injection Hrun as <- <-. by injection Hrun' as <- <-. }
  destruct (Z.eqb_spec (freq_status res) 200) as [H200|H200].
  { assert ((freq_status res =? 206) = false) as Hn.
    { by rewrite H200. }
    rewrite Hn in Hrun'.
    unfold bindM, lift, on_globals, coll_update in Hrun, Hrun'.
    destruct (freq_results res); cbn in Hrun, Hrun';
      injection Hrun as <- <-; by injection Hrun' as <- <-. }
  destruct (Z.eqb_spec (freq_status res) 206) as [H206|H206].
  2: { destruct (400 <=? freq_status res); unfold bindM, lift in *;
         destruct (freq_json res); cbn in *; injection Hrun as <- <-;
         by injection Hrun' as <- <-. }
  destruct (freq_results res) as [page|e] eqn:Hres.
  2: { unfold bindM, lift in Hrun, Hrun'.
       injection Hrun as <- <-. by injection Hrun' as <- <-. }
  unfold bindM at 1 in Hrun. unfold lift at 1 in Hrun.
  unfold bindM at 1 in Hrun. unfold on_globals at 1 in Hrun.
  unfold coll_update in Hrun.
  cbn [globals_of gene_limiter freq_limiter sent net coll log] in Hrun.
  unfold bindM at 1 in Hrun. unfold time_sleep at 1 in Hrun.
  cbn [globals_of gene_limiter freq_limiter sent net coll log] in Hrun.
  unfold bindM at 1 in Hrun. unfold on_globals at 1 in Hrun.
  unfold read_coll in Hrun.
  cbn [globals_of gene_limiter freq_limiter sent net coll log] in Hrun.
  unfold bindM at 1 in Hrun. unfold lift at 1 in Hrun.
  unfold bindM at 1 in Hrun'. unfold lift at 1 in Hrun'.
  unfold bindM at 1 in Hrun'. unfold coll_update at 1 in Hrun'.
  cbn [net coll log] in Hrun'.
  unfold bindM at 1 in Hrun'. unfold read_coll at 1 in Hrun'.
  cbn [net coll log] in Hrun'.
  unfold bindM at 1 in Hrun'. unfold lift at 1 in Hrun'.
  destruct (get_next_interval_start (page ∪ coll (globals_of p))) as [next|e] eqn:Hnext.
  2: { injection Hrun as <- <-. by injection Hrun' as <- <-. }
  match type of Hrun with
  | limited_get_freq_by_interval _ _ _ _ _ _ _ _ ?x = _ => set (p3 := x) in *
  end.
  pose proof (sleep_lasts second w) as Hsleep.
  assert (Hnow3 : now clock p + second <= now clock p3).
  { unfold now, p3. cbn. unfold now in Hmono. lia. }
  destruct (IH next p3) as [Hr Hg].
  { change (freq_limiter p3) with l. lia. }
  { change (freq_limiter p3) with l.
    rewrite limits_elapsed; [done|lia]. }
  rewrite Hrun in Hr, Hg. change (globals_of p3) with
    (Globals (sleep second w) (page ∪ coll (globals_of p))
       (log (globals_of p) ++ [(api_url seq_id start stop, Ok res)]))
    in Hr, Hg.
  rewrite Hrun' in Hr, Hg. done.
Qed.

End Clock_facts.

(* ===================================================================== *)
(** * The next interval start *)
(* ===================================================================== *)

(** C1.  On a non-empty mapping whose keys all have the form
    [<length>@<start>], [get_next_interval_start] returns the largest
    [start + length] of a key plus one; on the keys ["10@0"] and ["5@20"]
    it returns 26; and [get_freq_by_interval] applies it to the whole
    accumulator [coll] after the page has been merged, so the next call
    starts beyond every accumulated key, those of earlier pages included. *)
Theorem next_start_over_accumulator :
  (∀ (V : Type) (d : gmap string V),
     d ≠ ∅ →
     (∀ k, k ∈ dom d → ∃ l s, k = composite_key l s) →
     ∃ n, get_next_interval_start d = Ok n
          ∧ (∃ l s, composite_key l s ∈ dom d ∧ n = s + l + 1)
          ∧ (∀ l s, composite_key l s ∈ dom d → s + l + 1 <= n))
  ∧ (∀ (V : Type) (v1 v2 : V),
       get_next_interval_start
         (<["10@0"%string := v1]> (<["5@20"%string := v2]> ∅)) = Ok 26)
  ∧ (∀ (world : Type) (frequency : string → world → outcome freq_response * world)
       (depth : nat) (seq_id : string) (start stop : Z) (g : @globals world)
       (res : freq_response) (w : world) (page : gmap string json) (next : Z),
       frequency (api_url seq_id start stop) (net g) = (Ok res, w) →
       freq_status res = 206 →
       freq_body_of res = Results page →
       get_next_interval_start (page ∪ coll g) = Ok next →
       get_freq_by_interval frequency (S depth) seq_id start stop g
       = get_freq_by_interval frequency depth seq_id next stop
           (Globals w (page ∪ coll g)
              (log g ++ [(api_url seq_id start stop, Ok res)]))
       ∧ ∀ l s, composite_key l s ∈ dom (coll g) ∪ dom page → s + l < next).
Proof.
  split; [|split].
  - intros V d Hne Hkeys.
    assert (Hstops : ∀ k, k ∈ dom d → ∃ v, key_stop k = Ok v).
    { intros k Hk. destruct (Hkeys k Hk) as (l & s & ->).
      exists (l + s). apply key_stop_composite. }
    destruct (get_next_interval_start d) as [n|e] eqn:Hn.
    + exists n. split; [done|]. apply next_start_ok in Hn as [(k & Hk & Hstop) Hall].
      split.
      * destruct (Hkeys k Hk) as (l & s & ->). exists l, s. split; [done|].
        rewrite key_stop_composite in Hstop. injection Hstop as Hstop. lia.
      * intros l s Hin. destruct (Hall _ Hin) as (v & Hv & Hlt).
        rewrite key_stop_composite in Hv. injection Hv as <-. lia.
    + apply next_start_raises in Hn as [_ [->|(k & Hk & Hraise)]]; [done|].
      destruct (Hstops k Hk) as [v Hv]. congruence.
  - intros V v1 v2. apply next_start_ok. split.
    + exists "5@20"%string. split; [|reflexivity].
      rewrite !dom_insert_L, !elem_of_union, !elem_of_singleton. auto.
    + intros k. rewrite !dom_insert_L, dom_empty_L.
      rewrite !elem_of_union, !elem_of_singleton.
      intros [->|[->|Hk]].
      * exists 10. split; [reflexivity | lia].
      * exists 25. split; [reflexivity | lia].
      * by apply not_elem_of_empty in Hk.
  - intros world frequency depth seq_id start stop g res w page next
      Hget Hst Hbody Hnext. split.
    + by rewrite (run_partial frequency _ _ _ _ _ _ _ _ _ Hget Hst Hbody Hnext).
    + intros l s Hin. apply next_start_ok in Hnext as [_ Hall].
      destruct (Hall (composite_key l s)) as (v & Hv & Hlt).
      { rewrite dom_union_L, elem_of_union. rewrite elem_of_union in Hin. tauto. }
      rewrite key_stop_composite in Hv. injection Hv as <-. lia.
Qed.

(** C10.  On a non-empty mapping whose keys all read as
    [<length>@<start>], the value returned is greater than
    [start + length] for every key, and any mapping with the same key set
    gives the same value, whatever its records are. *)
Theorem next_start_bounds_and_keys (V : Type) (d : gmap string V) :
  d ≠ ∅ →
  (∀ k, k ∈ dom d → ∃ l s, reads_as k l s) →
  ∃ n, get_next_interval_start d = Ok n
       ∧ (∀ k l s, k ∈ dom d → reads_as k l s → s + l < n)
       ∧ (∀ (W : Type) (d' : gmap string W),
            dom d' = dom d → get_next_interval_start d' = Ok n).
Proof.
  intros Hne Hkeys.
  destruct (get_next_interval_start d) as [n|e] eqn:Hn.
  - exists n. split; [done|]. split.
    + intros k l s Hk Hread. apply next_start_ok in Hn as [_ Hall].
      destruct (Hall k Hk) as (v & Hv & Hlt).
      rewrite (reads_as_stop _ _ _ Hread) in Hv. injection Hv as <-. lia.
    + intros W d' Hdom. by rewrite (next_start_dom d' d Hdom).
  - apply next_start_raises in Hn as [_ [->|(k & Hk & Hraise)]]; [done|].
    destruct (Hkeys k Hk) as (l & s & Hread).
    rewrite (reads_as_stop _ _ _ Hread) in Hraise. done.
Qed.

(** C9.  [get_next_interval_start] raises on the empty mapping (the
    [max] of an empty list), so a result means the mapping was not empty;
    and a call of [get_freq_by_interval] that finds [coll] empty and
    receives a 206 reply without records raises that [ValueError] after
    its one request, instead of going on to a next interval. *)
Theorem empty_accumulator_stops_paginator :
  (∀ V : Type, get_next_interval_start (∅ : gmap string V) = Raise ValueError)
  ∧ (∀ (V : Type) (d : gmap string V) (n : Z),
       get_next_interval_start d = Ok n → d ≠ ∅)
  ∧ (∀ (world : Type) (frequency : string → world → outcome freq_response * world)
       (depth : nat) (seq_id : string) (start stop : Z) (g : @globals world)
       (res : freq_response) (w : world),
       coll g = ∅ →
       frequency (api_url seq_id start stop) (net g) = (Ok res, w) →
       freq_status res = 206 →
       freq_body_of res = Results ∅ →
       get_freq_by_interval frequency (S depth) seq_id start stop g
       = (Raise ValueError,
          Globals w ∅ (log g ++ [(api_url seq_id start stop, Ok res)]))).
Proof.
  split; [|split].
  - intros V. apply next_start_empty.
  - intros V d n Hn ->. by rewrite next_start_empty in Hn.
  - intros world frequency depth seq_id start stop g res w Hcoll Hget Hst Hbody.
    rewrite (run_partial_stuck frequency _ _ _ _ _ _ _ ∅ ValueError Hget Hst Hbody).
    + unfold merged_page, requested. cbn. by rewrite Hcoll, (left_id_L ∅ (∪)).
    + rewrite Hcoll, (left_id_L ∅ (∪)). apply next_start_empty.
Qed.

(* ===================================================================== *)
(** * The requests of the paginator *)
(* ===================================================================== *)

(** C2.  Every request of a call of [get_freq_by_interval] with bounds
    [start] and [stop], the requests of its nested calls included, is the
    URL of a position [s] and of the length [stop - s + 1], where [s] is
    the start of the call that sends it; the first one is sent for
    [start].  Read back as [{seq_id}:{position}:{length}], the URL gives
    that position and that length. *)
Theorem request_encodes_length (world : Type)
    (frequency : string → world → outcome freq_response * world)
    (depth : nat) (seq_id : string) (start stop : Z) (g : @globals world) :
  ∃ starts : list Z,
    (log (get_freq_by_interval frequency depth seq_id start stop g).2).*1
    = (log g).*1 ++ ((λ s, api_url seq_id s stop) <$> starts)
    ∧ (depth ≠ O → head starts = Some start)
    ∧ ∀ s, s ∈ starts →
        api_url seq_id s stop = interval_url seq_id s (stop - s + 1)
        ∧ Service.decode (api_url seq_id s stop)
          = Some (seq_id, s, stop - s + 1).
Proof.
  destruct (run_requests frequency depth seq_id start stop g)
    as (starts & Hlog & Hhead).
  exists starts. split; [done|]. split; [done|]. intros s _.
  split; [done|]. by rewrite api_url_interval, decode_interval_url.
Qed.

(* ===================================================================== *)
(** * The locator *)
(* ===================================================================== *)

(** C3.  When the summary reply is a success whose body holds, for the
    gene, a [genomicinfo] list with a first record giving [chraccver],
    [chrstart] = [x] and [chrstop] = [y], [get_gene_loc] returns the
    accession with the two positions in increasing order: they are
    swapped when [x > y] and left as they are otherwise. *)
Theorem locator_orders_interval (world : Type)
    (esummary : string → world → outcome response * world)
    (gene_id : string) (g : @globals world) (res : response) (w : world)
    (data result gene loc : gmap string json) (rest : list json)
    (chraccver vstart vstop : json) (x y : Z) :
  esummary (esum_url gene_id) (net g) = (Ok res, w) →
  status_code res = 200 →
  json_of res = Ok (JObj data) →
  data !! "result"%string = Some (JObj result) →
  result !! gene_id = Some (JObj gene) →
  gene !! "genomicinfo"%string = Some (JArr (JObj loc :: rest)) →
  loc !! "chraccver"%string = Some chraccver →
  loc !! "chrstart"%string = Some vstart → int_of_json vstart = Ok x →
  loc !! "chrstop"%string = Some vstop → int_of_json vstop = Ok y →
  ∃ start stop,
    get_gene_loc esummary gene_id g
    = (Ok (chraccver, start, stop), Globals w (coll g) (log g))
    ∧ start <= stop
    ∧ (x > y → start = y ∧ stop = x)
    ∧ (x <= y → start = x ∧ stop = y).
Proof.
  intros Hget Hst Hjson Hd Hr Hg Hacc Hs Hx He Hy.
  rewrite (get_gene_loc_response _ _ _ _ _ Hget).
  rewrite (gene_loc_located _ _ _ _ _ _ _ _ _ _ _ _
             Hst Hjson Hd Hr Hg Hacc Hs Hx He Hy).
  destruct (Z.gtb_spec x y).
  - exists y, x. repeat split; lia.
  - exists x, y. repeat split; lia.
Qed.

(** C4, as the code has it.  On a success reply whose body lacks
    ['result'], or the gene under ['result'], or ['genomicinfo'] under
    the gene, [get_gene_loc] reaches [raise("Genomic information ...")],
    and raising a [str] gives a [TypeError], which is not a
    [LookupError]; on an empty [genomicinfo] list the subscript [[0]]
    raises [IndexError], which is one. *)
Theorem locator_missing_location_error (world : Type)
    (esummary : string → world → outcome response * world)
    (gene_id : string) (g : @globals world) (res : response) (w : world)
    (data : gmap string json) :
  esummary (esum_url gene_id) (net g) = (Ok res, w) →
  status_code res = 200 →
  json_of res = Ok (JObj data) →
  (lacks_location gene_id data →
     get_gene_loc esummary gene_id g
     = (Raise TypeError, Globals w (coll g) (log g))
     ∧ is_LookupError TypeError = false)
  ∧ (∀ result gene,
       data !! "result"%string = Some (JObj result) →
       result !! gene_id = Some (JObj gene) →
       gene !! "genomicinfo"%string = Some (JArr []) →
       get_gene_loc esummary gene_id g
       = (Raise IndexError, Globals w (coll g) (log g))
       ∧ is_LookupError IndexError = true).
Proof.
  intros Hget Hst Hjson. rewrite (get_gene_loc_response _ _ _ _ _ Hget). split.
  - intros Hlack. by rewrite (gene_loc_missing _ _ _ Hst Hjson Hlack).
  - intros result gene Hd Hr Hg.
    by rewrite (gene_loc_no_record _ _ _ _ _ Hst Hjson Hd Hr Hg).
Qed.

(* ===================================================================== *)
(** * Failures of the paginator *)
(* ===================================================================== *)

(** C5, amended.  A call whose reply has a status of 400 or more raises,
    and so does a call whose reply has a status that is neither 200 nor
    206 nor 400 or more; in both cases nothing is merged and no further
    request is sent.  These are not the only failures: a call also raises
    when [requests.get] raises, when a reply with status 200 or 206 has a
    body that is not JSON or that has no ['results'], and when after a
    206 reply [get_next_interval_start] raises on the accumulator, into
    which the page has been merged by then. *)
Theorem paginator_failure_modes (world : Type)
    (frequency : string → world → outcome freq_response * world)
    (depth : nat) (seq_id : string) (start stop : Z) (g : @globals world) :
  let url := api_url seq_id start stop in
  let out := get_freq_by_interval frequency (S depth) seq_id start stop g in
  (∀ res w,
     frequency url (net g) = (Ok res, w) →
     400 <= freq_status res →
     ∃ e, out = (Raise e, Globals w (coll g) (log g ++ [(url, Ok res)])))
  ∧ (∀ res w,
       frequency url (net g) = (Ok res, w) →
       freq_status res ≠ 200 → freq_status res ≠ 206 → freq_status res < 400 →
       ∃ e, out = (Raise e, Globals w (coll g) (log g ++ [(url, Ok res)])))
  ∧ (∀ e w,
       frequency url (net g) = (Raise e, w) →
       out = (Raise e, Globals w (coll g) (log g ++ [(url, Raise e)])))
  ∧ (∀ res w,
       frequency url (net g) = (Ok res, w) →
       freq_status res = 200 ∨ freq_status res = 206 →
       (freq_body_of res = NotJson →
        out = (Raise JSONDecodeError,
               Globals w (coll g) (log g ++ [(url, Ok res)])))
       ∧ (freq_body_of res = NoResults →
          out = (Raise KeyError,
                 Globals w (coll g) (log g ++ [(url, Ok res)]))))
  ∧ (∀ res w page e,
       frequency url (net g) = (Ok res, w) →
       freq_status res = 206 →
       freq_body_of res = Results page →
       get_next_interval_start (page ∪ coll g) = Raise e →
       out = (Raise e, Globals w (page ∪ coll g) (log g ++ [(url, Ok res)]))).
Proof.
  intros url out. subst url out. split; [|split; [|split; [|split]]].
  - intros res w Hget Hst. rewrite (run_error_status frequency _ _ _ _ _ _ _ Hget Hst).
    destruct (freq_json res) as [|e]; eauto.
  - intros res w Hget H200 H206 Hst.
    rewrite (run_other_status frequency _ _ _ _ _ _ _ Hget H200 H206 Hst). eauto.
  - intros e w Hget. by rewrite (run_request_raises frequency _ _ _ _ _ _ _ Hget).
  - intros res w Hget Hst. split; intros Hbody.
    + rewrite (run_no_page frequency _ _ _ _ _ _ _ JSONDecodeError Hget Hst); [done|].
      unfold freq_results. by rewrite Hbody.
    + rewrite (run_no_page frequency _ _ _ _ _ _ _ KeyError Hget Hst); [done|].
      unfold freq_results. by rewrite Hbody.
  - intros res w page e Hget Hst Hbody Hnext.
    by rewrite (run_partial_stuck frequency _ _ _ _ _ _ _ _ _ Hget Hst Hbody Hnext).
Qed.

(** C6, amended.  When a top-level call raises, for another reason than
    a call stack used up, the caller gets the exception, and the records
    merged by the earlier iterations are not discarded: every request
    before the one at which the call stops was answered by a partial
    page, [coll] is the merge of all the pages received, and every key of
    those earlier pages is in [coll] after the failure.  (A run of the
    model that ends with [RecursionError] is left out because the program
    can run out of stack between a reply and its merge.) *)
Theorem failure_keeps_merged_pages (world : Type)
    (frequency : string → world → outcome freq_response * world)
    (depth : nat) (seq_id : string) (start stop : Z) (g : @globals world)
    (e : exn) :
  (collect frequency depth seq_id start stop g).1 = Raise e →
  e ≠ RecursionError →
  ∃ earlier rest,
    log (collect frequency depth seq_id start stop g).2
    = log g ++ earlier ++ rest
    ∧ (length rest ≤ 1)%nat
    ∧ Forall partial_reply earlier.*2
    ∧ coll (collect frequency depth seq_id start stop g).2
      = merged (earlier ++ rest).*2 ∅
    ∧ ∀ r k,
        r ∈ earlier.*2 → k ∈ dom (page_of r) →
        k ∈ dom (coll (collect frequency depth seq_id start stop g).2).
Proof.
  unfold collect. set (g0 := Globals (net g) ∅ (log g)). intros Herr _.
  destruct (run_raises_after_pages frequency depth seq_id start stop g0 e Herr)
    as (earlier & rest & Hlog & Hlen & Hpages).
  destruct (run_accumulates frequency depth seq_id start stop g0)
    as (new & Hlog' & Hcoll).
  assert (new = earlier ++ rest) as ->.
  { rewrite Hlog in Hlog'. by apply app_inv_head in Hlog'. }
  exists earlier, rest. split; [done|]. split; [done|]. split; [done|].
  split; [done|]. intros r k Hr Hk. rewrite Hcoll. apply merged_dom. right.
  exists r. split; [|done]. rewrite fmap_app, elem_of_app. by left.
Qed.

(* ===================================================================== *)
(** * How many calls, how many records *)
(* ===================================================================== *)



(* ===================================================================== *)
(** * The spacing of the requests *)
(* ===================================================================== *)



(* ===================================================================== *)
(** * The statements on sample data *)
(* ===================================================================== *)

Local Open Scope string_scope.

Lemma two_keys_form (k : string) :
  k ∈ dom two_keys → ∃ l s, k = composite_key l s.
Proof.
  unfold two_keys. rewrite dom_insert_L, dom_singleton_L.
  rewrite elem_of_union, !elem_of_singleton.
  intros [->| ->].
  - by exists 10, 0.
  - by exists 5, 20.
Qed.

Lemma two_keys_nonempty : two_keys ≠ ∅.
Proof. intros H. apply (f_equal (λ m, m !! "10@0")) in H. done. Qed.

Lemma next_start_over_accumulator_witness :
  (∃ n, get_next_interval_start two_keys = Ok n
        ∧ (∃ l s, composite_key l s ∈ dom two_keys ∧ n = s + l + 1)
        ∧ (∀ l s, composite_key l s ∈ dom two_keys → s + l + 1 <= n))
  ∧ (get_freq_by_interval scripted 3 "NC_000017.11" 0 99
       (Globals [FreqResponse 206 (Results second_page)] first_page [])
     = get_freq_by_interval scripted 2 "NC_000017.11" 26 99
         (Globals [] (second_page ∪ first_page)
            ([] ++ [(api_url "NC_000017.11" 0 99,
                     Ok (FreqResponse 206 (Results second_page)))])%list)
     ∧ ∀ l s, composite_key l s ∈ dom first_page ∪ dom second_page → s + l < 26).
Proof.
  split.
  - apply (proj1 next_start_over_accumulator json two_keys).
    + exact two_keys_nonempty.
    + exact two_keys_form.
  - apply (proj2 (proj2 next_start_over_accumulator)
             (list freq_response) scripted 2%nat "NC_000017.11" 0 99
             (Globals [FreqResponse 206 (Results second_page)] first_page [])
             (FreqResponse 206 (Results second_page)) [] second_page 26);
      reflexivity.
Defined.

Lemma next_start_bounds_and_keys_witness :
  ∃ n, get_next_interval_start two_keys = Ok n
       ∧ (∀ k l s, k ∈ dom two_keys → reads_as k l s → s + l < n)
       ∧ (∀ (W : Type) (d' : gmap string W),
            dom d' = dom two_keys → get_next_interval_start d' = Ok n).
Proof.
  apply (next_start_bounds_and_keys json two_keys).
  - exact two_keys_nonempty.
  - intros k Hk. destruct (two_keys_form k Hk) as (l & s & ->).
    exists l, s. apply reads_as_composite.
Defined.

Lemma empty_accumulator_stops_paginator_witness :
  get_freq_by_interval scripted 3 "NC_000017.11" 0 99
    (start_globals [FreqResponse 206 (Results ∅)])
  = (Raise ValueError,
     Globals [] ∅
       [(api_url "NC_000017.11" 0 99, Ok (FreqResponse 206 (Results ∅)))]).
Proof.
  apply (proj2 (proj2 empty_accumulator_stops_paginator)
           (list freq_response) scripted 2%nat "NC_000017.11" 0 99
           (start_globals [FreqResponse 206 (Results ∅)])
           (FreqResponse 206 (Results ∅)) []); reflexivity.
Defined.

Lemma request_encodes_length_witness :
  ∃ starts : list Z,
    (log (get_freq_by_interval scripted 3 "NC_000017.11" 0 99
            (start_globals [FreqResponse 206 (Results partial_page);
                            FreqResponse 200 (Results ∅)])).2).*1
    = ([] ++ ((λ s, api_url "NC_000017.11" s 99) <$> starts))%list
    ∧ (3%nat ≠ O → head starts = Some 0)
    ∧ ∀ s, s ∈ starts →
        api_url "NC_000017.11" s 99 = interval_url "NC_000017.11" s (99 - s + 1)
        ∧ Service.decode (api_url "NC_000017.11" s 99)
          = Some ("NC_000017.11", s, 99 - s + 1).
Proof.
  exact (request_encodes_length (list freq_response) scripted 3 "NC_000017.11" 0 99
           (start_globals [FreqResponse 206 (Results partial_page);
                           FreqResponse 200 (Results ∅)])).
Defined.

Lemma locator_orders_interval_witness :
  ∃ start stop,
    get_gene_loc (always tp53_reply) "7157" (start_globals tt)
    = (Ok (JStr "NC_000017.11", start, stop), Globals tt ∅ [])
    ∧ start <= stop
    ∧ (7687489 > 7668420 → start = 7668420 ∧ stop = 7687489)
    ∧ (7687489 <= 7668420 → start = 7687489 ∧ stop = 7668420).
Proof.
  apply (locator_orders_interval unit (always tp53_reply) "7157"
           (start_globals tt) tp53_reply tt
           tp53_data tp53_result tp53_gene tp53_loc []
           (JStr "NC_000017.11") (JInt 7687489) (JInt 7668420));
    reflexivity.
Defined.

Lemma locator_missing_location_error_witness :
  (get_gene_loc (always (Response 200 (Ok (JObj ∅)))) "7157" (start_globals tt)
   = (Raise TypeError, Globals tt ∅ [])
   ∧ is_LookupError TypeError = false)
  ∧ (get_gene_loc (always (Response 200 (Ok (JObj bare_data)))) "7157"
       (start_globals tt)
     = (Raise IndexError, Globals tt ∅ [])
     ∧ is_LookupError IndexError = true).
Proof.
  split.
  - apply (proj1 (locator_missing_location_error unit
                    (always (Response 200 (Ok (JObj ∅)))) "7157"
                    (start_globals tt) (Response 200 (Ok (JObj ∅))) tt ∅
                    eq_refl eq_refl eq_refl)).
    apply Lacks_result. reflexivity.
  - apply (proj2 (locator_missing_location_error unit
                    (always (Response 200 (Ok (JObj bare_data)))) "7157"
                    (start_globals tt) (Response 200 (Ok (JObj bare_data))) tt
                    bare_data eq_refl eq_refl eq_refl)
             bare_result bare_gene); reflexivity.
Defined.

(** The code at the failing input of C4: a success reply with the body
    [{}]. *)
Example locator_on_empty_body :
  get_gene_loc (always (Response 200 (Ok (JObj ∅)))) "7157" (start_globals tt)
  = (Raise TypeError, Globals tt ∅ []).
Proof. reflexivity. Qed.

Lemma paginator_failure_modes_witness :
  (∃ e, get_freq_by_interval scripted 3 "NC_000017.11" 0 99
          (start_globals [FreqResponse 500 NoResults])
        = (Raise e,
           Globals [] ∅
             ([] ++ [(api_url "NC_000017.11" 0 99,
                      Ok (FreqResponse 500 NoResults))])%list))
  ∧ (∃ e, get_freq_by_interval scripted 3 "NC_000017.11" 0 99
            (start_globals [FreqResponse 303 NotJson])
          = (Raise e,
             Globals [] ∅
               ([] ++ [(api_url "NC_000017.11" 0 99,
                        Ok (FreqResponse 303 NotJson))])%list))
  ∧ get_freq_by_interval scripted 3 "NC_000017.11" 0 99 (start_globals [])
    = (Raise RequestException,
       Globals [] ∅
         ([] ++ [(api_url "NC_000017.11" 0 99, Raise RequestException)])%list)
  ∧ get_freq_by_interval scripted 3 "NC_000017.11" 0 99
      (start_globals [FreqResponse 200 NoResults])
    = (Raise KeyError,
       Globals [] ∅
         ([] ++ [(api_url "NC_000017.11" 0 99,
                  Ok (FreqResponse 200 NoResults))])%list)
  ∧ get_freq_by_interval scripted 3 "NC_000017.11" 0 99
      (start_globals [FreqResponse 206 (Results ∅)])
    = (Raise ValueError,
       Globals [] (∅ ∪ ∅)
         ([] ++ [(api_url "NC_000017.11" 0 99,
                  Ok (FreqResponse 206 (Results ∅)))])%list).
Proof.
  split; [|split; [|split; [|split]]].
  - apply (proj1 (paginator_failure_modes (list freq_response) scripted 2
                    "NC_000017.11" 0 99
                    (start_globals [FreqResponse 500 NoResults]))
             (FreqResponse 500 NoResults) []).
    + reflexivity.
    + cbn. lia.
  - apply (proj1 (proj2 (paginator_failure_modes (list freq_response) scripted 2
                           "NC_000017.11" 0 99
                           (start_globals [FreqResponse 303 NotJson])))
             (FreqResponse 303 NotJson) []).
    + reflexivity.
    + cbn. lia.
    + cbn. lia.
    + cbn. lia.
  - apply (proj1 (proj2 (proj2 (paginator_failure_modes (list freq_response)
                                  scripted 2 "NC_000017.11" 0 99
                                  (start_globals []))))
             RequestException []).
    reflexivity.
  - apply (proj2 (proj1 (proj2 (proj2 (proj2
             (paginator_failure_modes (list freq_response) scripted 2
                "NC_000017.11" 0 99
                (start_globals [FreqResponse 200 NoResults])))))
             (FreqResponse 200 NoResults) [] eq_refl (or_introl eq_refl))).
    reflexivity.
  - apply (proj2 (proj2 (proj2 (proj2
             (paginator_failure_modes (list freq_response) scripted 2
                "NC_000017.11" 0 99
                (start_globals [FreqResponse 206 (Results ∅)])))))
             (FreqResponse 206 (Results ∅)) [] ∅ ValueError);
      reflexivity.
Defined.

(** C5 as stated fails: the only reply has status 206, and the call
    raises. *)
Lemma partial_reply_alone_fails :
  let reply := FreqResponse 206 (Results ∅) in
  let out := collect scripted 5 "NC_000017.11" 0 99 (start_globals [reply]) in
  out.1 = Raise ValueError
  ∧ (log out.2).*2 = [Ok reply]
  ∧ freq_status reply ≠ 200 ∧ ¬ (400 <= freq_status reply)
  ∧ freq_status reply = 206.
Proof. cbn. repeat split; try done; lia. Qed.

Lemma failure_keeps_merged_pages_witness :
  ∃ earlier rest,
    log (collect scripted 5 "NC_000017.11" 0 99 (start_globals failing_script)).2
    = ([] ++ earlier ++ rest)%list
    ∧ (length rest ≤ 1)%nat
    ∧ Forall partial_reply earlier.*2
    ∧ coll (collect scripted 5 "NC_000017.11" 0 99 (start_globals failing_script)).2
      = merged ((earlier ++ rest)%list).*2 ∅
    ∧ ∀ r k,
        r ∈ earlier.*2 → k ∈ dom (page_of r) →
        k ∈ dom (coll (collect scripted 5 "NC_000017.11" 0 99
                         (start_globals failing_script)).2).
Proof.
  apply (failure_keeps_merged_pages (list freq_response) scripted 5
           "NC_000017.11" 0 99 (start_globals failing_script) TypeError).
  - reflexivity.
  - discriminate.
Defined.

(** C6 as stated fails: the second page fails with status 500, and the
    record of the first page is still in [coll]. *)
Lemma failed_call_leaves_records :
  let out := collect scripted 5 "NC_000017.11" 0 99 (start_globals failing_script) in
  out.1 = Raise TypeError
  ∧ status_of <$> (log out.2).*2 = [Some 206; Some 500]
  ∧ coll out.2 = partial_page
  ∧ coll out.2 ≠ ∅.
Proof.
  vm_compute. repeat split; try reflexivity. discriminate.
Qed.

Lemma five_variants_NoDup : NoDup five_variants.
Proof. by apply (bool_decide_unpack (NoDup five_variants)). Qed.

Lemma ordered_variants_NoDup : NoDup ordered_variants.
Proof. by apply (bool_decide_unpack (NoDup ordered_variants)). Qed.

Lemma ordered_variants_follow :
  stops_follow_starts (Service.hits ordered_variants 0 (99 - 0 + 1)).
Proof.
  assert (Service.hits ordered_variants 0 (99 - 0 + 1) = ordered_variants) as ->
    by reflexivity.
  intros u v Hu Hv Hne Hle. unfold ordered_variants in *.
  repeat (apply elem_of_cons in Hu as [->|Hu]); try (by apply elem_of_nil in Hu);
  repeat (apply elem_of_cons in Hv as [->|Hv]); try (by apply elem_of_nil in Hv);
  cbn in *; try lia; done.
Qed.


(** On the five ordered variants with pages of two: three requests and
    five records. *)
Example pagination_on_ordered_variants :
  let out := collect (Service.frequency 2 ordered_variants) 6 "NC_000017.11" 0 99
               (start_globals tt) in
  out.1 = Ok tt ∧ List.length (log out.2) = 3%nat ∧ size (coll out.2) = 5%nat.
Proof. vm_compute. repeat split. Qed.


(** The same with the page size of the real service: 501 variants, pages
    of 250, two calls and 250 records. *)
Example pagination_misses_records_at_250 :
  let count := List.length (Service.hits many_variants 0 (4999 - 0 + 1)) in
  let out := collect (Service.frequency 250 many_variants) 10 "NC_000017.11" 0 4999
               (start_globals tt) in
  count = 501%nat
  ∧ out.1 = Ok tt
  ∧ List.length (log out.2) = 2%nat
  ∧ ceil_div count 250 = 3%nat
  ∧ size (coll out.2) = 250%nat.
Proof. vm_compute. repeat split. Qed.



(** The two requests of a call that receives a partial page and then a
    complete one: 300 ms for the first reply and a sleep of a second lie
    between them. *)
Example paginator_requests_on_the_clock :
  let p := fresh_process 5000 two_page_script in
  let paged := limited_get_freq_by_interval 1000 reading wake quick_frequency
                 5 "NC_000017.11" 0 99 p in
  paged.1 = Ok tt ∧ (sent paged.2).*1 = [5000; 6300].
Proof. vm_compute. done. Qed.

Local Close Scope string_scope.

(* ===================================================================== *)
(** * Further properties of the three functions *)
(* ===================================================================== *)

Lemma subscript_ok (v : json) (k : string) (x : json) :
  subscript v k = Ok x → ∃ m, v = JObj m ∧ m !! k = Some x.
Proof.
  destruct v as [| | | | | |m]; cbn; try done.
  destruct (m !! k) as [y|] eqn:Hk; [|done]. intros [= <-]. by exists m.
Qed.

Lemma subscript0_obj (v : json) (m : gmap string json) :
  subscript0 v = Ok (JObj m) → ∃ rest, v = JArr (JObj m :: rest).
Proof.
  destruct v as [| | | |s|l|m']; cbn; try done.
  - by destruct s.
  - destruct l as [|x rest]; [done|]. intros [= ->]. by exists rest.
Qed.

Lemma gene_loc_shape (gene_id : string) (res : response)
    (chraccver : json) (start stop : Z) :
  gene_loc_of_response gene_id res = Ok (chraccver, start, stop) →
  ∃ data result gene loc rest vstart vstop x y,
    status_code res = 200
    ∧ json_of res = Ok (JObj data)
    ∧ data !! "result"%string = Some (JObj result)
    ∧ result !! gene_id = Some (JObj gene)
    ∧ gene !! "genomicinfo"%string = Some (JArr (JObj loc :: rest))
    ∧ loc !! "chraccver"%string = Some chraccver
    ∧ loc !! "chrstart"%string = Some vstart ∧ int_of_json vstart = Ok x
    ∧ loc !! "chrstop"%string = Some vstop ∧ int_of_json vstop = Ok y
    ∧ start = Z.min x y ∧ stop = Z.max x y.
Proof.
  unfold gene_loc_of_response, raise_str.
  destruct (Z.eqb_spec (status_code res) 200) as [Hst|]; [|done]. cbn [negb].
  destruct (json_of res) as [data|] eqn:Hjson; [|done]. cbn [bind].
  destruct (location_missing gene_id data) as [[|]|]; try done. cbn [bind].
  destruct (subscript data "result") as [r|] eqn:Hr; [|done]. cbn [bind].
  destruct (subscript r gene_id) as [gn|] eqn:Hg; [|done]. cbn [bind].
  destruct (subscript gn "genomicinfo") as [infos|] eqn:Hi; [|done]. cbn [bind].
  destruct (subscript0 infos) as [loc|] eqn:Hl; [|done]. cbn [bind].
  destruct (subscript loc "chraccver") as [acc|] eqn:Ha; [|done]. cbn [bind].
  destruct (subscript loc "chrstart") as [vs|] eqn:Hs; [|done]. cbn [bind].
  destruct (int_of_json vs) as [x|] eqn:Hx; [|done]. cbn [bind].
  destruct (subscript loc "chrstop") as [ve|] eqn:He; [|done]. cbn [bind].
  destruct (int_of_json ve) as [y|] eqn:Hy; [|done]. cbn [bind].
  apply subscript_ok in Hr as (mdata & -> & Hr).
  apply subscript_ok in Hg as (mres & -> & Hg).
  apply subscript_ok in Hi as (mgene & -> & Hi).
  apply subscript_ok in Ha as (mloc & -> & Ha).
  apply subscript_ok in Hs as (mloc' & [= <-] & Hs).
  apply subscript_ok in He as (mloc' & [= <-] & He).
  apply subscript0_obj in Hl as (rest & ->).
  destruct (Z.gtb_spec x y); intros [= <- <- <-];
    exists mdata, mres, mgene, mloc, rest, vs, ve, x, y;
    repeat (split; [done|]); lia.
Qed.

(** X1.  Whatever the summary service replies, a triple that
    [get_gene_loc] returns has its start at or before its stop. *)
Theorem locator_result_is_ordered (world : Type)
    (esummary : string → world → outcome response * world)
    (gene_id : string) (g g' : @globals world)
    (chraccver : json) (start stop : Z) :
  get_gene_loc esummary gene_id g = (Ok (chraccver, start, stop), g') →
  start <= stop.
Proof.
  unfold get_gene_loc.
  destruct (esummary (esum_url gene_id) (net g)) as [[res|e] w]; cbn; [|done].
  intros [= Hloc _]. by apply gene_loc_ordered in Hloc.
Qed.

(** X2.  A triple that [get_gene_loc] returns was read from the first
    [genomicinfo] record of the gene in a reply with status 200: the
    accession is its [chraccver], and start and stop are the smaller and
    the larger of [int(chrstart)] and [int(chrstop)]. *)
Theorem locator_result_comes_from_first_record (world : Type)
    (esummary : string → world → outcome response * world)
    (gene_id : string) (g g' : @globals world)
    (chraccver : json) (start stop : Z) :
  get_gene_loc esummary gene_id g = (Ok (chraccver, start, stop), g') →
  ∃ res data result gene loc rest vstart vstop x y,
    (esummary (esum_url gene_id) (net g)).1 = Ok res
    ∧ status_code res = 200
    ∧ json_of res = Ok (JObj data)
    ∧ data !! "result"%string = Some (JObj result)
    ∧ result !! gene_id = Some (JObj gene)
    ∧ gene !! "genomicinfo"%string = Some (JArr (JObj loc :: rest))
    ∧ loc !! "chraccver"%string = Some chraccver
    ∧ loc !! "chrstart"%string = Some vstart ∧ int_of_json vstart = Ok x
    ∧ loc !! "chrstop"%string = Some vstop ∧ int_of_json vstop = Ok y
    ∧ start = Z.min x y ∧ stop = Z.max x y.
Proof.
  unfold get_gene_loc.
  destruct (esummary (esum_url gene_id) (net g)) as [[res|e] w]; cbn; [|done].
  intros [= Hloc _]. apply gene_loc_shape in Hloc
    as (data & result & gene & loc & rest & vs & ve & x & y & H).
  by exists res, data, result, gene, loc, rest, vs, ve, x, y.
Qed.

Lemma subscript_obj_absent (k : string) (m : gmap string json) :
  m !! k = None → subscript (JObj m) k = Raise KeyError.
Proof. intros Hk. cbn. by rewrite Hk. Qed.

(** The part of [get_gene_loc] that reads the first record. *)
Lemma gene_loc_reads_record (gene_id : string) (res : response)
    (data result gene loc : gmap string json) (rest : list json) :
  status_code res = 200 →
  json_of res = Ok (JObj data) →
  data !! "result"%string = Some (JObj result) →
  result !! gene_id = Some (JObj gene) →
  gene !! "genomicinfo"%string = Some (JArr (JObj loc :: rest)) →
  gene_loc_of_response gene_id res
  = let* chraccver := subscript (JObj loc) "chraccver" in
    let* v := subscript (JObj loc) "chrstart" in
    let* chrstart := int_of_json v in
    let* v := subscript (JObj loc) "chrstop" in
    let* chrstop := int_of_json v in
    if chrstart >? chrstop then Ok (chraccver, chrstop, chrstart)
    else Ok (chraccver, chrstart, chrstop).
Proof.
  intros Hst Hjson Hd Hr Hg. unfold gene_loc_of_response.
  rewrite Hst, Hjson. cbn [Z.eqb Pos.eqb negb bind].
  rewrite (location_present _ _ _ _ _ Hd Hr Hg). cbn [bind].
  rewrite (subscript_obj _ _ _ Hd). cbn [bind].
  rewrite (subscript_obj _ _ _ Hr). cbn [bind].
  rewrite (subscript_obj _ _ _ Hg). done.
Qed.

(** X3.  When the first [genomicinfo] record lacks [chraccver],
    [chrstart] or [chrstop] (the fields read before it being usable),
    [get_gene_loc] raises [KeyError], a [LookupError]. *)
Theorem locator_missing_field_is_key_error (world : Type)
    (esummary : string → world → outcome response * world)
    (gene_id : string) (g : @globals world) (res : response) (w : world)
    (data result gene loc : gmap string json) (rest : list json) :
  esummary (esum_url gene_id) (net g) = (Ok res, w) →
  status_code res = 200 →
  json_of res = Ok (JObj data) →
  data !! "result"%string = Some (JObj result) →
  result !! gene_id = Some (JObj gene) →
  gene !! "genomicinfo"%string = Some (JArr (JObj loc :: rest)) →
  loc !! "chraccver"%string = None
  ∨ (is_Some (loc !! "chraccver"%string) ∧ loc !! "chrstart"%string = None)
  ∨ (is_Some (loc !! "chraccver"%string)
     ∧ (∃ v x, loc !! "chrstart"%string = Some v ∧ int_of_json v = Ok x)
     ∧ loc !! "chrstop"%string = None) →
  get_gene_loc esummary gene_id g = (Raise KeyError, Globals w (coll g) (log g))
  ∧ is_LookupError KeyError = true.
Proof.
  intros Hget Hst Hjson Hd Hr Hg Hmiss.
  rewrite (get_gene_loc_response _ _ _ _ _ Hget).
  rewrite (gene_loc_reads_record _ _ _ _ _ _ _ Hst Hjson Hd Hr Hg).
  split; [|done]. f_equal.
  destruct Hmiss as [Ha|[[[a Ha] Hs]|([a Ha] & (v & x & Hs & Hx) & He)]].
  - by rewrite (subscript_obj_absent _ _ Ha).
  - rewrite (subscript_obj _ _ _ Ha). cbn [bind].
    by rewrite (subscript_obj_absent _ _ Hs).
  - rewrite (subscript_obj _ _ _ Ha). cbn [bind].
    rewrite (subscript_obj _ _ _ Hs). cbn [bind]. rewrite Hx. cbn [bind].
    by rewrite (subscript_obj_absent _ _ He).
Qed.

(** X4.  When [int] raises on [chrstart], or on [chrstop] after a usable
    [chrstart], [get_gene_loc] raises that same exception after its one
    request, as on the text ["7.6e6"], for which [int] raises
    [ValueError]. *)
Theorem locator_bad_position_raises (world : Type)
    (esummary : string → world → outcome response * world)
    (gene_id : string) (g : @globals world) (res : response) (w : world)
    (data result gene loc : gmap string json) (rest : list json)
    (chraccver vstart : json) (e : exn) :
  esummary (esum_url gene_id) (net g) = (Ok res, w) →
  status_code res = 200 →
  json_of res = Ok (JObj data) →
  data !! "result"%string = Some (JObj result) →
  result !! gene_id = Some (JObj gene) →
  gene !! "genomicinfo"%string = Some (JArr (JObj loc :: rest)) →
  loc !! "chraccver"%string = Some chraccver →
  loc !! "chrstart"%string = Some vstart →
  (int_of_json vstart = Raise e
   ∨ ∃ x vstop, int_of_json vstart = Ok x
                ∧ loc !! "chrstop"%string = Some vstop
                ∧ int_of_json vstop = Raise e) →
  get_gene_loc esummary gene_id g = (Raise e, Globals w (coll g) (log g)).
Proof.
  intros Hget Hst Hjson Hd Hr Hg Ha Hs Hbad.
  rewrite (get_gene_loc_response _ _ _ _ _ Hget).
  rewrite (gene_loc_reads_record _ _ _ _ _ _ _ Hst Hjson Hd Hr Hg).
  rewrite (subscript_obj _ _ _ Ha). cbn [bind].
  rewrite (subscript_obj _ _ _ Hs). cbn [bind].
  destruct Hbad as [Hx|(x & ve & Hx & He & Hy)].
  - by rewrite Hx.
  - rewrite Hx. cbn [bind]. rewrite (subscript_obj _ _ _ He). cbn [bind].
    by rewrite Hy.
Qed.

Lemma key_stop_reads (k : string) :
  (∃ v, key_stop k = Ok v) ↔ ∃ l s, reads_as k l s.
Proof.
  split.
  - intros [v Hv]. destruct (stop_reads_as k v Hv) as (l & s & Hr & _). eauto.
  - intros (l & s & Hr). exists (l + s). by apply reads_as_stop.
Qed.

(** X5.  [get_next_interval_start] raises exactly when the mapping is
    empty or has a key that does not read as [<length>@<start>], and what
    it raises is always [ValueError]. *)
Theorem next_start_raises_exactly_when (V : Type) (d : gmap string V) :
  ((∃ e, get_next_interval_start d = Raise e)
   ↔ d = ∅ ∨ ∃ k, k ∈ dom d ∧ ¬ ∃ l s, reads_as k l s)
  ∧ ∀ e, get_next_interval_start d = Raise e → e = ValueError.
Proof.
  split; [split|].
  - intros [e He]. apply next_start_raises in He as [_ [->|(k & Hk & Hraise)]].
    + by left.
    + right. exists k. split; [done|]. intros Hread.
      apply key_stop_reads in Hread as [v Hv]. congruence.
  - intros Hbad. destruct (get_next_interval_start d) as [n|e] eqn:Hn; [|by exists e].
    exfalso. apply next_start_ok in Hn as [(k0 & Hk0 & _) Hall].
    destruct Hbad as [->|(k & Hk & Hread)].
    + by rewrite dom_empty_L in Hk0.
    + apply Hread, key_stop_reads. destruct (Hall k Hk) as (v & Hv & _). eauto.
  - intros e He. by apply next_start_raises in He as [-> _].
Qed.

Lemma next_start_mono {V W : Type} (d : gmap string V) (d' : gmap string W)
    (a b : Z) :
  dom d ⊆ dom d' →
  get_next_interval_start d = Ok a → get_next_interval_start d' = Ok b → a <= b.
Proof.
  intros Hsub Ha Hb.
  apply next_start_ok in Ha as [(k & Hk & Hstop) _].
  apply next_start_ok in Hb as [_ Hall].
  destruct (Hall k (Hsub k Hk)) as (v & Hv & Hlt).
  rewrite Hstop in Hv. injection Hv as <-. lia.
Qed.

(** X6.  The next start of two mappings merged is the larger of their
    next starts. *)
Theorem next_start_of_union (V : Type) (d1 d2 : gmap string V) (a b : Z) :
  get_next_interval_start d1 = Ok a →
  get_next_interval_start d2 = Ok b →
  get_next_interval_start (d1 ∪ d2) = Ok (Z.max a b).
Proof.
  intros Ha Hb.
  apply next_start_ok in Ha as [(k1 & Hk1 & Hs1) Hall1].
  apply next_start_ok in Hb as [(k2 & Hk2 & Hs2) Hall2].
  apply next_start_ok. split.
  - destruct (Z.max_spec a b) as [[Hlt ->]|[Hle ->]].
    + exists k2. split; [|done]. rewrite dom_union_L, elem_of_union. by right.
    + exists k1. split; [|done]. rewrite dom_union_L, elem_of_union. by left.
  - intros k. rewrite dom_union_L, elem_of_union. intros [Hk|Hk].
    + destruct (Hall1 k Hk) as (v & Hv & Hlt). exists v. split; [done|lia].
    + destruct (Hall2 k Hk) as (v & Hv & Hlt). exists v. split; [done|lia].
Qed.

(** ** Further facts about runs *)

Lemma merged_snoc (rs : list (outcome freq_response)) (r : outcome freq_response)
    (c : gmap string json) :
  merged (rs ++ [r]) c = page_of r ∪ merged rs c.
Proof. unfold merged. by rewrite foldl_app. Qed.

Lemma merged_untouched (rs : list (outcome freq_response))
    (c : gmap string json) (k : string) :
  (∀ r, r ∈ rs → k ∉ dom (page_of r)) → merged rs c !! k = c !! k.
Proof.
  unfold merged. revert c. induction rs as [|r rs IH]; intros c Hrs; [done|].
  cbn [foldl]. rewrite IH by (intros r' Hr'; apply Hrs; by right).
  apply lookup_union_r. apply not_elem_of_dom. apply Hrs. left.
Qed.

Section More_runs.

Context {world : Type}.
Variable frequency : string → world → outcome freq_response * world.
Abbreviation run := (get_freq_by_interval frequency).

Lemma run_request_count depth seq_id start stop (g : @globals world) :
  ∃ new, log (run depth seq_id start stop g).2 = log g ++ new
         ∧ (length new ≤ depth)%nat.
Proof.
  revert start g. induction depth as [|depth IH]; intros start g.
  { exists []. cbn. by rewrite app_nil_r. }
  call_cases frequency (S depth) seq_id start stop g; try done;
    try (eexists [_]; cbn; split; [done | lia]).
  injection Hd as <-.
  destruct (IH next
    (merged_page (requested g (api_url seq_id start stop) (Ok res) w) page))
    as (new & Hlog & Hlen).
  exists ((api_url seq_id start stop, Ok res) :: new). split.
  - rewrite Hlog. cbn. by rewrite <- app_assoc.
  - cbn. lia.
Qed.

(** The replies of a call that returns: partial pages, then a complete
    page. *)
Lemma run_returns_pages depth seq_id start stop (g : @globals world) :
  (run depth seq_id start stop g).1 = Ok tt →
  ∃ earlier url res page,
    log (run depth seq_id start stop g).2 = log g ++ earlier ++ [(url, Ok res)]
    ∧ Forall partial_reply earlier.*2
    ∧ freq_status res = 200 ∧ freq_body_of res = Results page.
Proof.
  revert start g. induction depth as [|depth IH]; intros start g; [done|].
  call_cases frequency (S depth) seq_id start stop g; try done.
  - intros _. exists [], (api_url seq_id start stop), res, page.
    cbn. split; [done|]. split; [constructor | done].
  - injection Hd as <-. intros Hok.
    destruct (IH next _ Hok) as (earlier & url & res' & page' & Hlog & Hearly & Hst' & Hb').
    exists ((api_url seq_id start stop, Ok res) :: earlier), url, res', page'.
    split; [|split; [|done]].
    + rewrite Hlog. cbn. by rewrite <- !app_assoc.
    + cbn. constructor; [|done]. by exists res, page.
  - cbn. by destruct (freq_json res).
Qed.

(** A run that does not end with [RecursionError] is the same with any
    deeper stack: what is proved of such a run does not depend on
    [depth]. *)
Lemma run_more_depth depth seq_id start stop (g : @globals world) :
  (run depth seq_id start stop g).1 ≠ Raise RecursionError →
  run (S depth) seq_id start stop g = run depth seq_id start stop g.
Proof.
  revert start g. induction depth as [|depth IH]; intros start g; [done|].
  call_cases frequency (S depth) seq_id start stop g; try done; intros Hne.
  - by rewrite (run_request_raises frequency _ _ _ _ _ _ _ Hget).
  - by rewrite (run_complete frequency _ _ _ _ _ _ _ _ Hget Hst Hbody).
  - by rewrite (run_no_page frequency _ _ _ _ _ _ _ _ Hget Hst Hres).
  - injection Hd as <-.
    rewrite (run_partial frequency _ _ _ _ _ _ _ _ _ Hget Hst Hbody Hnext).
    by apply IH.
  - by rewrite (run_partial_stuck frequency _ _ _ _ _ _ _ _ _ Hget Hst Hbody Hnext).
  - by rewrite (run_error_status frequency _ _ _ _ _ _ _ Hget Hst).
  - by rewrite (run_other_status frequency _ _ _ _ _ _ _ Hget H200 H206 Hst).
Qed.

(** The starts of the calls nested in a call whose start is the next
    start of its accumulator. *)
Lemma run_starts_sorted depth seq_id s stop (g : @globals world) :
  get_next_interval_start (coll g) = Ok s →
  ∃ starts : list Z,
    (log (run depth seq_id s stop g).2).*1
    = (log g).*1 ++ ((λ x, api_url seq_id x stop) <$> starts)
    ∧ StronglySorted Z.le starts
    ∧ Forall (Z.le s) starts.
Proof.
  revert s g. induction depth as [|depth IH]; intros s g Hs.
  { exists []. cbn. rewrite app_nil_r. repeat split; constructor. }
  call_cases frequency (S depth) seq_id s stop g; try done;
    try (exists [s]; cbn; rewrite fmap_app; split; [done|];
         split; repeat constructor; lia).
  injection Hd as <-.
  assert (Hle : s <= next).
  { eapply (next_start_mono (coll g) (page ∪ coll g)); [|done..].
    rewrite dom_union_L. apply union_subseteq_r. }
  destruct (IH next
    (merged_page (requested g (api_url seq_id s stop) (Ok res) w) page) Hnext)
    as (starts & Hlog & Hsorted & Hge).
  exists (s :: starts). split; [|split].
  - rewrite Hlog. cbn. rewrite fmap_app, <- app_assoc. done.
  - constructor; [done|]. eapply Forall_impl; [exact Hge|]. cbn. lia.
  - constructor; [lia|]. eapply Forall_impl; [exact Hge|]. cbn. lia.
Qed.

End More_runs.

(** X7.  A call of [get_freq_by_interval], whatever its outcome, removes
    no key from [coll] and leaves the record of every key that no
    received page holds as it was; and unless the call ends with
    [RecursionError], a key of the last received page has the record of
    that page. *)
Theorem accumulator_only_grows (world : Type)
    (frequency : string → world → outcome freq_response * world)
    (depth : nat) (seq_id : string) (start stop : Z) (g : @globals world) :
  dom (coll g) ⊆ dom (coll (get_freq_by_interval frequency depth seq_id start stop g).2)
  ∧ ∃ new,
      log (get_freq_by_interval frequency depth seq_id start stop g).2 = log g ++ new
      ∧ (∀ k, (∀ r, r ∈ new.*2 → k ∉ dom (page_of r)) →
              coll (get_freq_by_interval frequency depth seq_id start stop g).2 !! k
              = coll g !! k)
      ∧ ((get_freq_by_interval frequency depth seq_id start stop g).1
         ≠ Raise RecursionError →
         ∀ r k v, last new.*2 = Some r → page_of r !! k = Some v →
                  coll (get_freq_by_interval frequency depth seq_id start stop g).2 !! k
                  = Some v).
Proof.
  destruct (run_accumulates frequency depth seq_id start stop g)
    as (new & Hlog & Hcoll).
  split.
  - intros k Hk. rewrite Hcoll. apply merged_dom. by left.
  - exists new. split; [done|]. split.
    + intros k Hk. rewrite Hcoll. by apply merged_untouched.
    + intros _ r k v Hlast Hv. rewrite Hcoll.
      destruct (new.*2) as [|r0 rs] eqn:Hnew using rev_ind; [done|].
      rewrite last_snoc in Hlast. injection Hlast as ->.
      rewrite merged_snoc. by apply lookup_union_Some_l.
Qed.

(** X8.  After the first request of a call, the starts of the requests
    of the nested calls never decrease. *)
Theorem paginator_starts_never_decrease (world : Type)
    (frequency : string → world → outcome freq_response * world)
    (depth : nat) (seq_id : string) (start stop : Z) (g : @globals world) :
  ∃ starts : list Z,
    (log (get_freq_by_interval frequency depth seq_id start stop g).2).*1
    = (log g).*1 ++ ((λ s, api_url seq_id s stop) <$> starts)
    ∧ StronglySorted Z.le (tail starts).
Proof.
  destruct depth as [|depth].
  { exists []. cbn. rewrite app_nil_r. split; [done | constructor]. }
  call_cases frequency (S depth) seq_id start stop g; try done;
    try (exists [start]; cbn; rewrite fmap_app; split; [done | constructor]).
  injection Hd as <-.
  destruct (run_starts_sorted frequency depth seq_id next stop
    (merged_page (requested g (api_url seq_id start stop) (Ok res) w) page) Hnext)
    as (starts & Hlog & Hsorted & _).
  exists (start :: starts). split; [|done].
  rewrite Hlog. cbn. rewrite fmap_app, <- app_assoc. done.
Qed.

Section Repeating_service.

Context {world : Type}.
Variable frequency : string → world → outcome freq_response * world.
Variable res : freq_response.
Variable page : gmap string json.
Variable seq_id : string.
Variable stop n : Z.

Hypothesis every_reply : ∀ url w, ∃ w', frequency url w = (Ok res, w').
Hypothesis partial_status : freq_status res = 206.
Hypothesis partial_body : freq_body_of res = Results page.

Lemma run_repeats depth (s : Z) (g : @globals world) :
  get_next_interval_start (page ∪ coll g) = Ok n →
  (get_freq_by_interval frequency depth seq_id s stop g).1 = Raise RecursionError
  ∧ (log (get_freq_by_interval frequency depth seq_id s stop g).2).*1
    = (log g).*1 ++
      match depth with
      | O => []
      | S d => api_url seq_id s stop :: replicate d (api_url seq_id n stop)
      end
  ∧ coll (get_freq_by_interval frequency depth seq_id s stop g).2
    = match depth with O => coll g | S _ => page ∪ coll g end.
Proof.
  revert s g. induction depth as [|depth IH]; intros s g Hn.
  { cbn. by rewrite app_nil_r. }
  destruct (every_reply (api_url seq_id s stop) (net g)) as [w Hget].
  rewrite (run_partial frequency _ _ _ _ _ _ _ _ _ Hget partial_status partial_body Hn).
  set (g2 := merged_page (requested g (api_url seq_id s stop) (Ok res) w) page).
  assert (Hn2 : get_next_interval_start (page ∪ coll g2) = Ok n).
  { cbn. by rewrite (assoc_L (∪)), (idemp_L (∪) page). }
  destruct (IH n g2 Hn2) as (Hout & Hlog & Hcoll).
  split; [done|]. split.
  - rewrite Hlog. cbn. rewrite fmap_app, <- app_assoc. cbn. by destruct depth.
  - rewrite Hcoll. destruct depth; [done|]. cbn.
    by rewrite (assoc_L (∪)), (idemp_L (∪) page).
Qed.

End Repeating_service.

(** X9.  Nothing bounds the number of iterations but the call stack.
    Against a service that answers every request with the same partial
    page, when the next start [n] of that page merged into [coll] is
    defined, a call never returns and never fails otherwise than by
    [RecursionError]; its first request asks for the interval from its
    start, every later one for the interval from [n]; and there is no
    number of requests that a deep enough stack does not reach. *)
Theorem paginator_repeats_until_depth (world : Type)
    (frequency : string → world → outcome freq_response * world)
    (res : freq_response) (page : gmap string json)
    (seq_id : string) (start stop n : Z) (g : @globals world) :
  (∀ url w, ∃ w', frequency url w = (Ok res, w')) →
  freq_status res = 206 →
  freq_body_of res = Results page →
  get_next_interval_start (page ∪ coll g) = Ok n →
  (∀ depth,
     (get_freq_by_interval frequency depth seq_id start stop g).1
     = Raise RecursionError
     ∧ ∃ urls,
         (log (get_freq_by_interval frequency depth seq_id start stop g).2).*1
         = (log g).*1 ++ urls
         ∧ (depth ≠ O → head urls = Some (api_url seq_id start stop))
         ∧ Forall (λ url, url = api_url seq_id n stop) (tail urls))
  ∧ ∀ k : nat, ∃ depth,
      (length (log g) + k
       ≤ length (log (get_freq_by_interval frequency depth seq_id start stop g).2))%nat.
Proof.
  intros Hall Hst Hbody Hn. split.
  - intros depth.
    destruct (run_repeats frequency res page seq_id stop n Hall Hst Hbody
                depth start g Hn) as (Hout & Hlog & _).
    split; [done|]. eexists. split; [exact Hlog|].
    destruct depth as [|d]; [done|]. split; [done|]. cbn [tail].
    apply Forall_forall. intros url Hurl. by apply elem_of_replicate in Hurl as [-> _].
  - intros k. exists k.
    destruct (run_repeats frequency res page seq_id stop n Hall Hst Hbody
                k start g Hn) as (_ & Hlog & _).
    apply (f_equal length) in Hlog. rewrite length_app, !length_fmap in Hlog.
    rewrite Hlog. destruct k as [|d]; cbn [length]; [lia|].
    rewrite length_replicate. lia.
Qed.

(** X11.  A call that returns has received partial pages and then one
    complete page, one request each and fewer nested calls than the depth
    allows; [coll] is then the complete page on top of the partial pages
    merged into what [coll] held before. *)
Theorem returning_call_accumulates_pages (world : Type)
    (frequency : string → world → outcome freq_response * world)
    (depth : nat) (seq_id : string) (start stop : Z) (g : @globals world) :
  (get_freq_by_interval frequency depth seq_id start stop g).1 = Ok tt →
  ∃ earlier url res page,
    log (get_freq_by_interval frequency depth seq_id start stop g).2
    = log g ++ earlier ++ [(url, Ok res)]
    ∧ Forall partial_reply earlier.*2
    ∧ freq_status res = 200
    ∧ freq_body_of res = Results page
    ∧ (length earlier < depth)%nat
    ∧ coll (get_freq_by_interval frequency depth seq_id start stop g).2
      = page ∪ merged earlier.*2 (coll g).
Proof.
  intros Hok.
  destruct (run_returns_pages frequency depth seq_id start stop g Hok)
    as (earlier & url & res & page & Hlog & Hearly & Hst & Hbody).
  destruct (run_request_count frequency depth seq_id start stop g)
    as (new & Hlog' & Hlen).
  destruct (run_accumulates frequency depth seq_id start stop g)
    as (new' & Hlog'' & Hcoll).
  assert (new = earlier ++ [(url, Ok res)]) as ->.
  { rewrite Hlog in Hlog'. by apply app_inv_head in Hlog'. }
  assert (new' = earlier ++ [(url, Ok res)]) as ->.
  { rewrite Hlog in Hlog''. by apply app_inv_head in Hlog''. }
  exists earlier, url, res, page. repeat (split; [done|]). split.
  - rewrite length_app in Hlen. cbn in Hlen. lia.
  - rewrite Hcoll, fmap_app. cbn [fmap list_fmap snd].
    rewrite merged_snoc. f_equal. apply page_of_page; auto.
Qed.

(** X12.  Fed with the triple that [get_gene_loc] returned, the last
    cell first requests the interval at the returned start with the
    length [stop - start + 1], which is at least 1. *)
Theorem locator_feeds_paginator (world : Type)
    (esummary : string → world → outcome response * world)
    (frequency : string → world → outcome freq_response * world)
    (gene_id accession : string) (depth : nat) (start stop : Z)
    (g g1 : @globals world) :
  get_gene_loc esummary gene_id g = (Ok (JStr accession, start, stop), g1) →
  1 <= stop - start + 1
  ∧ ∃ rest,
      log (collect frequency (S depth) accession start stop g1).2
      = log g ++
        (interval_url accession start (stop - start + 1),
         (frequency (interval_url accession start (stop - start + 1)) (net g1)).1)
        :: rest.
Proof.
  intros Hloc. split.
  - unfold get_gene_loc in Hloc.
    destruct (esummary (esum_url gene_id) (net g)) as [[res|e] w];
      cbn in Hloc; [|done].
    injection Hloc as Hloc _. apply gene_loc_ordered in Hloc. lia.
  - assert (Hlog : log g1 = log g).
    { unfold get_gene_loc in Hloc.
      destruct (esummary (esum_url gene_id) (net g)) as [r w].
      by injection Hloc as _ <-. }
    unfold collect.
    destruct (run_first_request frequency depth accession start stop
                (Globals (net g1) ∅ (log g1))) as (rest & Hfirst).
    exists rest. rewrite Hfirst. cbn. by rewrite Hlog.
Qed.

(** X13.  The URL of a request determines the sequence id, the start
    and the stop it was built from, also when the sequence id contains
    a colon or a slash. *)
Theorem api_url_determines_interval (seq_id seq_id' : string)
    (start stop start' stop' : Z) :
  api_url seq_id start stop = api_url seq_id' start' stop' →
  seq_id = seq_id' ∧ start = start' ∧ stop = stop'.
Proof.
  intros Heq. apply (f_equal Service.decode) in Heq.
  rewrite !api_url_interval, !decode_interval_url in Heq.
  injection Heq as -> -> Hlen. repeat split. lia.
Qed.

(* ===================================================================== *)
(** * The further properties on sample data *)
(* ===================================================================== *)

Local Open Scope string_scope.

Lemma locator_result_is_ordered_witness : 7668420 <= 7687489.
Proof.
  apply (locator_result_is_ordered unit (always tp53_reply) "7157"
           (start_globals tt) (Globals tt ∅ []) (JStr "NC_000017.11")).
  reflexivity.
Defined.

Lemma locator_result_comes_from_first_record_witness :
  ∃ res data result gene loc rest vstart vstop x y,
    (always tp53_reply (esum_url "7157") (net (start_globals tt))).1 = Ok res
    ∧ status_code res = 200
    ∧ json_of res = Ok (JObj data)
    ∧ data !! "result" = Some (JObj result)
    ∧ result !! "7157" = Some (JObj gene)
    ∧ gene !! "genomicinfo" = Some (JArr (JObj loc :: rest))
    ∧ loc !! "chraccver" = Some (JStr "NC_000017.11")
    ∧ loc !! "chrstart" = Some vstart ∧ int_of_json vstart = Ok x
    ∧ loc !! "chrstop" = Some vstop ∧ int_of_json vstop = Ok y
    ∧ 7668420 = Z.min x y ∧ 7687489 = Z.max x y.
Proof.
  apply (locator_result_comes_from_first_record unit (always tp53_reply) "7157"
           (start_globals tt) (Globals tt ∅ [])).
  reflexivity.
Defined.

Lemma locator_missing_field_is_key_error_witness :
  get_gene_loc (always (Response 200 (Ok (JObj short_data)))) "7157"
    (start_globals tt)
  = (Raise KeyError, Globals tt ∅ [])
  ∧ is_LookupError KeyError = true.
Proof.
  apply (locator_missing_field_is_key_error unit
           (always (Response 200 (Ok (JObj short_data)))) "7157"
           (start_globals tt) (Response 200 (Ok (JObj short_data))) tt
           short_data short_result short_gene short_loc []);
    try reflexivity.
  right. right. split; [by eexists|]. split; [|reflexivity].
  exists (JInt 7687489), 7687489. split; reflexivity.
Defined.

Lemma locator_bad_position_raises_witness :
  get_gene_loc (always (Response 200 (Ok (JObj odd_data)))) "7157"
    (start_globals tt)
  = (Raise ValueError, Globals tt ∅ []).
Proof.
  apply (locator_bad_position_raises unit
           (always (Response 200 (Ok (JObj odd_data)))) "7157"
           (start_globals tt) (Response 200 (Ok (JObj odd_data))) tt
           odd_data odd_result odd_gene odd_loc []
           (JStr "NC_000017.11") (JStr "7.6e6") ValueError);
    try reflexivity.
  left. reflexivity.
Defined.

Lemma next_start_of_union_witness :
  get_next_interval_start (first_page ∪ second_page) = Ok (Z.max 11 26).
Proof.
  apply (next_start_of_union json first_page second_page 11 26); reflexivity.
Defined.

Lemma accumulator_only_grows_witness :
  let out := get_freq_by_interval scripted 5 "NC_000017.11" 0 99
               (Globals two_page_script first_page []) in
  dom first_page ⊆ dom (coll out.2)
  ∧ ∃ new,
      log out.2 = ([] ++ new)%list
      ∧ (∀ k, (∀ r, r ∈ new.*2 → k ∉ dom (page_of r)) →
              coll out.2 !! k = first_page !! k)
      ∧ ∀ r k v, last new.*2 = Some r → page_of r !! k = Some v →
                 coll out.2 !! k = Some v.
Proof.
  pose proof (accumulator_only_grows (list freq_response) scripted 5
                "NC_000017.11" 0 99 (Globals two_page_script first_page []))
    as (Hdom & new & Hlog & Hkept & Hlast).
  split; [exact Hdom|]. exists new. split; [exact Hlog|]. split; [exact Hkept|].
  apply Hlast. vm_compute. discriminate.
Defined.

Lemma paginator_repeats_until_depth_witness :
  let run depth :=
    get_freq_by_interval (repeating (FreqResponse 206 (Results second_page)))
      depth "NC_000017.11" 0 99 (start_globals tt) in
  (∀ depth,
     (run depth).1 = Raise RecursionError
     ∧ ∃ urls,
         (log (run depth).2).*1 = ([] ++ urls)%list
         ∧ (depth ≠ O → head urls = Some (api_url "NC_000017.11" 0 99))
         ∧ Forall (λ url, url = api_url "NC_000017.11" 26 99) (tail urls))
  ∧ ∀ k : nat, ∃ depth, (0 + k ≤ length (log (run depth).2))%nat.
Proof.
  apply (paginator_repeats_until_depth unit
           (repeating (FreqResponse 206 (Results second_page)))
           (FreqResponse 206 (Results second_page)) second_page
           "NC_000017.11" 0 99 26 (start_globals tt)).
  - intros url []. by exists tt.
  - reflexivity.
  - reflexivity.
  - reflexivity.
Defined.

Lemma returning_call_accumulates_pages_witness :
  ∃ earlier url res page,
    log (get_freq_by_interval scripted 5 "NC_000017.11" 0 99
           (start_globals two_page_script)).2
    = ([] ++ earlier ++ [(url, Ok res)])%list
    ∧ Forall partial_reply earlier.*2
    ∧ freq_status res = 200
    ∧ freq_body_of res = Results page
    ∧ (length earlier < 5)%nat
    ∧ coll (get_freq_by_interval scripted 5 "NC_000017.11" 0 99
              (start_globals two_page_script)).2
      = page ∪ merged earlier.*2 ∅.
Proof.
  apply (returning_call_accumulates_pages (list freq_response) scripted 5
           "NC_000017.11" 0 99 (start_globals two_page_script)).
  reflexivity.
Defined.

Lemma locator_feeds_paginator_witness :
  1 <= 7687489 - 7668420 + 1
  ∧ ∃ rest,
      log (collect (repeating (FreqResponse 200 (Results ∅))) 3
             "NC_000017.11" 7668420 7687489 (Globals tt ∅ [])).2
      = ([] ++
         (interval_url "NC_000017.11" 7668420 (7687489 - 7668420 + 1),
          (repeating (FreqResponse 200 (Results ∅))
             (interval_url "NC_000017.11" 7668420 (7687489 - 7668420 + 1))
             (net (Globals tt ∅ []))).1)
         :: rest)%list.
Proof.
  apply (locator_feeds_paginator unit (always tp53_reply)
           (repeating (FreqResponse 200 (Results ∅))) "7157" "NC_000017.11" 2
           7668420 7687489 (start_globals tt) (Globals tt ∅ [])).
  reflexivity.
Defined.

Lemma api_url_determines_interval_witness :
  "NC_000017.11" = "NC_000017.11" ∧ 0 = 0 ∧ 99 = 99.
Proof.
  apply (api_url_determines_interval "NC_000017.11" "NC_000017.11" 0 99 0 99).
  reflexivity.
Defined.
